(** * Covey.Town room service: the town controller

    A shallow embedding of [src/lib/CoveyTownController.ts]: the class
    [CoveyTownController] (players, sessions, listeners, town metadata) and
    the [townSocketAdapter] that turns a socket into a listener.

    JavaScript objects that the controller compares or mutates are modelled
    with an explicit object identity ([obj : nat]); their mutable fields live
    in a store indexed by that identity, so that every alias of a Player sees
    a location update.  Calls that leave the controller (listener methods,
    [socket.disconnect], the video client) are recorded in a trace, in call
    order.  The [await] in [addPlayer] splits that method in two functions:
    what runs before the promise settles and what runs after. *)

From Stdlib Require Import ZArith.
From stdpp Require Import base decidable option list gmap strings.

(** ** Data *)

(** A socket.io [Socket]: only its identity matters to the controller. *)
Definition Socket := nat.

(** [UserLocation] of [CoveyTypes] is imported by the controller and its
    fields appear in the tests ([x], [y], [moving], [rotation]); the
    controller never computes with them. *)
Module UserLocation.
Record t := mk { x : Z; y : Z; moving : bool; rotation : string }.
#[global] Instance location_eq_dec : EqDecision t.
Proof. solve_decision. Defined.
End UserLocation.

(** Modelled from the spec: the class [Player] ([types/Player], not part of
    the sources at hand).  A Player has an identifier assigned when it is
    built, a display name and a current location; only the location changes,
    and [updateLocation] overwrites it unconditionally.  The immutable part
    is the record below; the location is kept in the store of the [World],
    under the object identity [obj]. *)
Module Player.
Record t := mk { obj : nat; id : string; userName : string }.
#[global] Instance player_eq_dec : EqDecision t.
Proof. solve_decision. Defined.
End Player.

(** Modelled from the spec: the class [PlayerSession] ([types/PlayerSession],
    not part of the sources at hand).  A session binds its Player to an
    opaque token chosen when the session is built; the video token is
    attached later and is kept in the store of the [World]. *)
Module PlayerSession.
Record t := mk { obj : nat; sessionToken : string; player : Player.t }.
#[global] Instance session_eq_dec : EqDecision t.
Proof. solve_decision. Defined.
End PlayerSession.

(** A [CoveyTownListener] object.  The controller builds listeners itself
    with [townSocketAdapter]; any other implementation of the interface can
    be registered through [addTownListener] (the tests register mocks). *)
Inductive CoveyTownListener :=
| SocketAdapter (obj : nat) (socket : Socket)
| Subscriber (obj : nat).

#[global] Instance CoveyTownListener_eq_dec : EqDecision CoveyTownListener.
Proof. solve_decision. Defined.

(** What a listener method is handed: the Player object, together with the
    location that the object holds at the time of the call. *)
Record PlayerArg := mkArg {
  arg_player : Player.t;
  arg_location : option UserLocation.t
}.

#[global] Instance PlayerArg_eq_dec : EqDecision PlayerArg.
Proof. solve_decision. Defined.

(** The four methods of the listener interface. *)
Inductive Notification :=
| onPlayerMoved (movedPlayer : PlayerArg)
| onPlayerDisconnected (removedPlayer : PlayerArg)
| onPlayerJoined (newPlayer : PlayerArg)
| onTownDestroyed.

#[global] Instance Notification_eq_dec : EqDecision Notification.
Proof. solve_decision. Defined.

(** Calls that leave the controller. *)
Inductive Event :=
| ListenerCall (listener : CoveyTownListener) (n : Notification)
| SocketDisconnect (socket : Socket) (close : bool)
| GetTokenForTown (coveyTownID : string) (playerID : string).

#[global] Instance Event_eq_dec : EqDecision Event.
Proof. solve_decision. Defined.

(** What a socket is asked to do. *)
Inductive SocketAction :=
| Emit (socket : Socket) (ev : string) (payload : option PlayerArg)
| Disconnect (socket : Socket) (close : bool).

(** The closures that [connect] passes to [socket.on]; each captures the
    listener and the session of its connection. *)
Inductive Handler :=
| DisconnectHandler (listener : CoveyTownListener) (session : PlayerSession.t)
| PlayerMovementHandler (session : PlayerSession.t).

#[global] Instance Handler_eq_dec : EqDecision Handler.
Proof. solve_decision. Defined.

(** The fields of the class. *)
Record CoveyTownController := mkTown {
  _players : list Player.t;
  _sessions : list PlayerSession.t;
  _listeners : list CoveyTownListener;
  _coveyTownID : string;
  _friendlyName : string;
  _townUpdatePassword : string;
  _isPubliclyListed : bool
}.

(** The controller together with what it shares with its environment. *)
Record World := mkWorld {
  town : CoveyTownController;
  locations : gmap nat UserLocation.t;   (* Player.location, by object *)
  videoTokens : gmap nat string;         (* PlayerSession.videoToken, by object *)
  handlers : list (Socket * Handler);    (* socket.on registrations, in order *)
  next_obj : nat;                        (* objects built so far *)
  trace : list Event
}.

(** ** Field updates *)

Definition set_players (ps : list Player.t) (t : CoveyTownController) :=
  mkTown ps (_sessions t) (_listeners t) (_coveyTownID t) (_friendlyName t)
         (_townUpdatePassword t) (_isPubliclyListed t).

Definition set_sessions (ss : list PlayerSession.t) (t : CoveyTownController) :=
  mkTown (_players t) ss (_listeners t) (_coveyTownID t) (_friendlyName t)
         (_townUpdatePassword t) (_isPubliclyListed t).

Definition set_listeners (ls : list CoveyTownListener) (t : CoveyTownController) :=
  mkTown (_players t) (_sessions t) ls (_coveyTownID t) (_friendlyName t)
         (_townUpdatePassword t) (_isPubliclyListed t).

Definition set_friendlyName (value : string) (t : CoveyTownController) :=
  mkTown (_players t) (_sessions t) (_listeners t) (_coveyTownID t) value
         (_townUpdatePassword t) (_isPubliclyListed t).

Definition set_isPubliclyListed (value : bool) (t : CoveyTownController) :=
  mkTown (_players t) (_sessions t) (_listeners t) (_coveyTownID t)
         (_friendlyName t) (_townUpdatePassword t) value.

Definition with_town (f : CoveyTownController → CoveyTownController) (w : World) :=
  mkWorld (f (town w)) (locations w) (videoTokens w) (handlers w) (next_obj w)
          (trace w).

Definition emit (evs : list Event) (w : World) :=
  mkWorld (town w) (locations w) (videoTokens w) (handlers w) (next_obj w)
          (trace w ++ evs).

(** Modelled from the spec: [player.updateLocation(location)], a method of
    the class [Player], overwrites the location of that Player object
    unconditionally. *)
Definition updateLocation (p : Player.t) (l : UserLocation.t) (w : World) :=
  mkWorld (town w) (<[Player.obj p := l]> (locations w)) (videoTokens w)
          (handlers w) (next_obj w) (trace w).

Definition set_videoToken (s : PlayerSession.t) (tok : string) (w : World) :=
  mkWorld (town w) (locations w) (<[PlayerSession.obj s := tok]> (videoTokens w))
          (handlers w) (next_obj w) (trace w).

Definition socket_on (socket : Socket) (h : Handler) (w : World) :=
  mkWorld (town w) (locations w) (videoTokens w) (handlers w ++ [(socket, h)])
          (next_obj w) (trace w).

Definition alloc (w : World) :=
  mkWorld (town w) (locations w) (videoTokens w) (handlers w) (S (next_obj w))
          (trace w).

(** ** The controller *)

(** [new CoveyTownController(friendlyName, isPubliclyListed)]; the two
    generated strings ([friendlyNanoID()], [nanoid(24)]) are arguments. *)
Definition new_town (coveyTownID townUpdatePassword friendlyName : string)
    (isPubliclyListed : bool) : CoveyTownController :=
  mkTown [] [] [] coveyTownID friendlyName townUpdatePassword isPubliclyListed.

Definition new_world (t : CoveyTownController) : World :=
  mkWorld t ∅ ∅ [] 0 [].

(** [get occupancy()] *)
Definition occupancy (t : CoveyTownController) : nat := length (_listeners t).

(** The Player object as a listener sees it now. *)
Definition observe (w : World) (p : Player.t) : PlayerArg :=
  mkArg p (locations w !! Player.obj p).

(** [this._listeners.forEach(listener => listener.m(...))] for the three
    player notifications: the listeners are called in list order, and these
    methods do not call back into the controller (the adapter's only emit on
    the socket).  The town-destroyed notification is different, see
    [disconnectAllPlayers]. *)
Definition forEach_listener (n : Notification) (w : World) : World :=
  emit (map (λ listener, ListenerCall listener n) (_listeners (town w))) w.

(** [addPlayer], up to the [await]: the session is built (its token is what
    the constructor draws), session and player are pushed, and the video
    client is asked for a token. *)
Definition addPlayer_start (sessionToken : string) (newPlayer : Player.t)
    (w : World) : PlayerSession.t * World :=
  let theSession := PlayerSession.mk (next_obj w) sessionToken newPlayer in
  let w := alloc w in
  let w := with_town (λ t, set_sessions (_sessions t ++ [theSession]) t) w in
  let w := with_town (λ t, set_players (_players t ++ [newPlayer]) t) w in
  let w := emit [GetTokenForTown (_coveyTownID (town w)) (Player.id newPlayer)] w in
  (theSession, w).

(** [addPlayer], from the [await] on, in the state the town is in when the
    promise settles.  [fetched = None] is a rejected promise: the exception
    leaves [addPlayer], whose own promise rejects. *)
Definition addPlayer_resume (theSession : PlayerSession.t)
    (fetched : option string) (w : World) : option PlayerSession.t * World :=
  match fetched with
  | None => (None, w)
  | Some videoToken =>
      let w := set_videoToken theSession videoToken w in
      let newPlayer := PlayerSession.player theSession in
      let w := forEach_listener (onPlayerJoined (observe w newPlayer)) w in
      (Some theSession, w)
  end.

(** [addPlayer] when nothing else runs while the token is fetched. *)
Definition addPlayer (sessionToken : string) (newPlayer : Player.t)
    (fetched : option string) (w : World) : option PlayerSession.t * World :=
  let '(theSession, w) := addPlayer_start sessionToken newPlayer w in
  addPlayer_resume theSession fetched w.

(** [onPlayerMovement]; [player.updateLocation(location)] overwrites the
    location of the Player object. *)
Definition onPlayerMovement (player : Player.t) (location : UserLocation.t)
    (w : World) : World :=
  let w := updateLocation player location w in
  forEach_listener (onPlayerMoved (observe w player)) w.

Definition addTownListener (listener : CoveyTownListener) (w : World) : World :=
  with_town (λ t, set_listeners (_listeners t ++ [listener]) t) w.

Definition removeTownListener (listener : CoveyTownListener) (w : World) : World :=
  with_town (λ t, set_listeners (filter (λ v, v ≠ listener) (_listeners t)) t) w.

Definition onDisconnect (listener : CoveyTownListener)
    (session : PlayerSession.t) (w : World) : World :=
  let w := removeTownListener listener w in
  let w := with_town (λ t, set_players
             (filter (λ p, Player.id p ≠ Player.id (PlayerSession.player session))
                     (_players t)) t) w in
  let w := with_town (λ t, set_sessions
             (filter (λ s, PlayerSession.sessionToken s
                           ≠ PlayerSession.sessionToken session)
                     (_sessions t)) t) w in
  forEach_listener (onPlayerDisconnected (observe w (PlayerSession.player session))) w.

(** [townSocketAdapter(socket)]: a new listener object around the socket. *)
Definition townSocketAdapter (obj : nat) (socket : Socket) : CoveyTownListener :=
  SocketAdapter obj socket.

(** The bodies of the adapter's four methods. *)
Definition adapter_method (socket : Socket) (n : Notification) : list SocketAction :=
  match n with
  | onPlayerMoved movedPlayer => [Emit socket "playerMoved" (Some movedPlayer)]
  | onPlayerDisconnected removedPlayer =>
      [Emit socket "playerDisconnect" (Some removedPlayer)]
  | onPlayerJoined newPlayer => [Emit socket "newPlayer" (Some newPlayer)]
  | onTownDestroyed => [Emit socket "townClosing" None; Disconnect socket true]
  end.

(** What an event of the trace asks of the sockets. *)
Definition socket_actions (e : Event) : list SocketAction :=
  match e with
  | ListenerCall (SocketAdapter _ socket) n => adapter_method socket n
  | ListenerCall (Subscriber _) _ => []
  | SocketDisconnect socket close => [Disconnect socket close]
  | GetTokenForTown _ _ => []
  end.

(** [this._sessions.find(p => p.sessionToken === sessionToken)] *)
Definition find_session (sessionToken : string) (t : CoveyTownController)
    : option PlayerSession.t :=
  List.find (λ p, bool_decide (PlayerSession.sessionToken p = sessionToken))
            (_sessions t).

(** [connect] is called once for each new connection, with the socket of
    that connection: when it rejects, the socket carries no handler of the
    controller yet, and closing it runs none. *)
Definition connect (sessionToken : string) (socket : Socket) (w : World) : World :=
  match find_session sessionToken (town w) with
  | None => emit [SocketDisconnect socket true] w
  | Some session =>
      let listener := townSocketAdapter (next_obj w) socket in
      let w := alloc w in
      let w := addTownListener listener w in
      let w := socket_on socket (DisconnectHandler listener session) w in
      socket_on socket (PlayerMovementHandler session) w
  end.

(** ** Socket events

    The sockets are socket.io sockets.  A socket event runs the handlers
    registered for it with [socket.on], in registration order.  The
    ['disconnect'] event is fired when the client goes away, and also,
    before [socket.disconnect(true)] returns, when the server closes the
    socket. *)

Definition run_disconnect (h : Handler) (w : World) : World :=
  match h with
  | DisconnectHandler listener session => onDisconnect listener session w
  | PlayerMovementHandler _ => w
  end.

Definition run_playerMovement (movementData : UserLocation.t) (h : Handler)
    (w : World) : World :=
  match h with
  | DisconnectHandler _ _ => w
  | PlayerMovementHandler session =>
      onPlayerMovement (PlayerSession.player session) movementData w
  end.

Definition handlers_of (socket : Socket) (w : World) : list Handler :=
  map snd (filter (λ sh, sh.1 = socket) (handlers w)).

Definition socket_disconnect (socket : Socket) (w : World) : World :=
  foldl (λ w h, run_disconnect h w) w (handlers_of socket w).

Definition socket_playerMovement (socket : Socket)
    (movementData : UserLocation.t) (w : World) : World :=
  foldl (λ w h, run_playerMovement movementData h w) w (handlers_of socket w).

(** [listener.onTownDestroyed()].  The adapter emits [townClosing] and calls
    [socket.disconnect(true)], which fires the ['disconnect'] event of the
    socket: the handler that [connect] installed runs [onDisconnect] before
    the call returns.  Other listeners are only called. *)
Definition call_onTownDestroyed (listener : CoveyTownListener) (w : World)
    : World :=
  let w := emit [ListenerCall listener onTownDestroyed] w in
  match listener with
  | SocketAdapter _ socket => socket_disconnect socket w
  | Subscriber _ => w
  end.

(** [disconnectAllPlayers]: the [forEach] walks the array that
    [this._listeners] holds when it starts; [removeTownListener], run from
    inside the loop by [onDisconnect], replaces the field by a new array and
    leaves that one as it is. *)
Definition disconnectAllPlayers (w : World) : World :=
  foldl (λ w listener, call_onTownDestroyed listener w) w
        (_listeners (town w)).

(** ** Counting *)

Definition callee (e : Event) : option CoveyTownListener :=
  match e with
  | ListenerCall listener _ => Some listener
  | _ => None
  end.

(** How many listener calls of a piece of trace go to [listener]. *)
Definition calls_to (listener : CoveyTownListener) (evs : list Event) : nat :=
  length (filter (λ e, callee e = Some listener) evs).

(** How many times a piece of trace tells [listener] that the town is
    destroyed. *)
Definition destroyed_calls_to (listener : CoveyTownListener)
    (evs : list Event) : nat :=
  length (filter (λ e, e = ListenerCall listener onTownDestroyed) evs).

(** How many listener calls a piece of trace holds. *)
Definition calls (evs : list Event) : nat :=
  length (filter (λ e, is_Some (callee e)) evs).

(** How many times [listener] is in the listener list. *)
Definition registrations (listener : CoveyTownListener)
    (t : CoveyTownController) : nat :=
  length (filter (λ v, v = listener) (_listeners t)).

(** The events appended to the trace between [w] and a later [w']. *)
Definition emitted (w w' : World) : list Event :=
  drop (length (trace w)) (trace w').

(** ** Operations that depend on the password check *)

Section Controller.

(** [passwordMatches] is imported from [CoveyTownsStore], which is not part
    of the sources at hand: it is a parameter of what follows. *)
Variable passwordMatches : string → string → bool.

Definition update (coveyTownPassword : string) (friendlyName : option string)
    (makePublic : option bool) (t : CoveyTownController)
    : bool * CoveyTownController :=
  let result := false in
  if passwordMatches coveyTownPassword (_townUpdatePassword t) then
    let result := true in
    let '(result, t) :=
      match friendlyName with
      | Some friendlyName =>
          if (String.length friendlyName =? 0)%nat then (false, t)
          else (result, set_friendlyName friendlyName t)
      | None => (result, t)
      end in
    let t :=
      match makePublic with
      | Some makePublic =>
          if result then set_isPubliclyListed makePublic t else t
      | None => t
      end in
    (result, t)
  else (result, t).

(** What [update] is said to do: nothing, with [false], on a wrong password
    or an empty name; otherwise the changes that were given, with [true]. *)
Definition update_rejects (coveyTownPassword : string)
    (friendlyName : option string) (t : CoveyTownController) : Prop :=
  passwordMatches coveyTownPassword (_townUpdatePassword t) = false
  ∨ friendlyName = Some "".

Definition apply_changes (friendlyName : option string)
    (makePublic : option bool) (t : CoveyTownController) : CoveyTownController :=
  mkTown (_players t) (_sessions t) (_listeners t) (_coveyTownID t)
         (default (_friendlyName t) friendlyName) (_townUpdatePassword t)
         (default (_isPubliclyListed t) makePublic).

Definition update_described (coveyTownPassword : string)
    (friendlyName : option string) (makePublic : option bool)
    (t : CoveyTownController) : bool * CoveyTownController :=
  if bool_decide (update_rejects coveyTownPassword friendlyName t)
  then (false, t)
  else (true, apply_changes friendlyName makePublic t).

(** ** Histories

    Whatever can happen to a town: calls of its methods and public setters,
    the settling of a pending token fetch, and events of connected
    sockets. *)
Inductive Op :=
| AddPlayerStart (sessionToken : string) (newPlayer : Player.t)
| AddPlayerResume (theSession : PlayerSession.t) (fetched : option string)
| Update (coveyTownPassword : string) (friendlyName : option string)
         (makePublic : option bool)
| SetFriendlyName (value : string)
| SetIsPubliclyListed (value : bool)
| AddTownListener (listener : CoveyTownListener)
| RemoveTownListener (listener : CoveyTownListener)
| DisconnectAllPlayers
| Connect (sessionToken : string) (socket : Socket)
| OnDisconnect (listener : CoveyTownListener) (session : PlayerSession.t)
| OnPlayerMovement (player : Player.t) (location : UserLocation.t)
| SocketDisconnected (socket : Socket)
| SocketPlayerMovement (socket : Socket) (movementData : UserLocation.t).

Definition step (o : Op) (w : World) : World :=
  match o with
  | AddPlayerStart sessionToken newPlayer =>
      (addPlayer_start sessionToken newPlayer w).2
  | AddPlayerResume theSession fetched =>
      (addPlayer_resume theSession fetched w).2
  | Update coveyTownPassword friendlyName makePublic =>
      with_town (λ t, (update coveyTownPassword friendlyName makePublic t).2) w
  | SetFriendlyName value => with_town (set_friendlyName value) w
  | SetIsPubliclyListed value => with_town (set_isPubliclyListed value) w
  | AddTownListener listener => addTownListener listener w
  | RemoveTownListener listener => removeTownListener listener w
  | DisconnectAllPlayers => disconnectAllPlayers w
  | Connect sessionToken socket => connect sessionToken socket w
  | OnDisconnect listener session => onDisconnect listener session w
  | OnPlayerMovement player location => onPlayerMovement player location w
  | SocketDisconnected socket => socket_disconnect socket w
  | SocketPlayerMovement socket movementData =>
      socket_playerMovement socket movementData w
  end.

Definition run (ops : list Op) (w : World) : World :=
  foldl (λ w o, step o w) w ops.

(** ** A small town to run things in *)

Definition alice : Player.t := Player.mk 100 "id-alice" "alice".
Definition bob : Player.t := Player.mk 101 "id-bob" "bob".
Definition carol : Player.t := Player.mk 102 "id-carol" "carol".

Definition empty_town : World :=
  new_world (new_town "1A2B3C4D" "update-password" "Town" false).

(** Alice and Bob have joined and have opened their sockets, 1 and 2. *)
Definition two_connected : World :=
  let w := (addPlayer "token-alice" alice (Some "video-alice") empty_town).2 in
  let w := (addPlayer "token-bob" bob (Some "video-bob") w).2 in
  let w := connect "token-alice" 1 w in
  connect "token-bob" 2 w.

Definition alice_session : PlayerSession.t := PlayerSession.mk 0 "token-alice" alice.
Definition bob_session : PlayerSession.t := PlayerSession.mk 1 "token-bob" bob.
Definition alice_listener : CoveyTownListener := SocketAdapter 2 1.
Definition bob_listener : CoveyTownListener := SocketAdapter 3 2.

Definition somewhere : UserLocation.t := UserLocation.mk 100 100 true "back".

(** ** Reading traces and histories *)

(** From [w] to [w'] the trace has only grown, by events that satisfy [P]. *)
Definition grows (P : Event → Prop) (w w' : World) : Prop :=
  ∃ evs, trace w' = trace w ++ evs ∧ Forall P evs.

(** A call of a listener of [ls] with one of the three player
    notifications. *)
Definition player_call (ls : list CoveyTownListener) (e : Event) : Prop :=
  ∃ l n, e = ListenerCall l n ∧ l ∈ ls ∧ n ≠ onTownDestroyed.

(** What a piece of trace asks of the sockets, in order. *)
Definition wire (evs : list Event) : list SocketAction :=
  flat_map socket_actions evs.

Definition is_emit (a : SocketAction) : Prop :=
  match a with
  | Emit _ _ _ => True
  | Disconnect _ _ => False
  end.

(** The operations that can put [l] in the listener list: registering it,
    and connecting the socket it adapts. *)
Definition registers (l : CoveyTownListener) (o : Op) : Prop :=
  match o with
  | AddTownListener listener => listener = l
  | Connect _ socket => ∃ obj, l = SocketAdapter obj socket
  | _ => False
  end.

(** The operations that write the friendly name or the visibility:
    [update] and the two public setters. *)
Definition writes_listing (o : Op) : Prop :=
  match o with
  | Update _ _ _ | SetFriendlyName _ | SetIsPubliclyListed _ => True
  | _ => False
  end.

(** Listener objects are built by [connect] only: every adapter in the
    listener list is an object built so far. *)
Definition adapters_built (w : World) : Prop :=
  ∀ obj socket,
    SocketAdapter obj socket ∈ _listeners (town w) → obj < next_obj w.

(** Callers of [addTownListener] bring listeners of their own making, not
    adapters. *)
Definition own_listener (o : Op) : Prop :=
  match o with
  | AddTownListener (SocketAdapter _ _) => False
  | _ => True
  end.

(** What the adapter of [socket] sends for a town that is destroyed. *)
Definition closing (l : CoveyTownListener) : list SocketAction :=
  match l with
  | SocketAdapter _ socket =>
      [Emit socket "townClosing" None; Disconnect socket true]
  | Subscriber _ => []
  end.

(** The events an operation can add to the trace, read off its code. *)
Definition step_event (o : Op) (w : World) (e : Event) : Prop :=
  match o with
  | DisconnectAllPlayers =>
      (∃ l, l ∈ _listeners (town w) ∧ e = ListenerCall l onTownDestroyed)
      ∨ player_call (_listeners (town w)) e
  | Connect sessionToken socket =>
      find_session sessionToken (town w) = None
      ∧ e = SocketDisconnect socket true
  | AddPlayerStart _ newPlayer =>
      e = GetTokenForTown (_coveyTownID (town w)) (Player.id newPlayer)
  | _ => player_call (_listeners (town w)) e
  end.

(** What the handlers of a socket can do to a town: call listeners that
    were registered, with player notifications, and take listeners out. *)
Definition handled (w w' : World) : Prop :=
  grows (player_call (_listeners (town w))) w w'
  ∧ _listeners (town w') ⊆ _listeners (town w)
  ∧ _coveyTownID (town w') = _coveyTownID (town w)
  ∧ _townUpdatePassword (town w') = _townUpdatePassword (town w)
  ∧ _friendlyName (town w') = _friendlyName (town w)
  ∧ _isPubliclyListed (town w') = _isPubliclyListed (town w)
  ∧ handlers w' = handlers w
  ∧ next_obj w' = next_obj w.

(** Alice has joined and has not connected yet. *)
Definition alice_joined : World :=
  (addPlayer "token-alice" alice (Some "video-alice") empty_town).2.

(** Alice has joined a second time, from the town of [two_connected]. *)
Definition alice_twice : World :=
  (addPlayer "token-alice-2" alice (Some "video-alice-2") two_connected).2.

Definition alice_second_session : PlayerSession.t :=
  PlayerSession.mk 4 "token-alice-2" alice.

(** What the adapter of a socket sends for a player notification. *)
Definition sends (ev : string) (payload : PlayerArg) (l : CoveyTownListener)
    : list SocketAction :=
  match l with
  | SocketAdapter _ socket => [Emit socket ev (Some payload)]
  | Subscriber _ => []
  end.

(** The operation that can put a session with this token in the town. *)
Definition mints (sessionToken : string) (o : Op) : Prop :=
  match o with
  | AddPlayerStart sessionToken' _ => sessionToken' = sessionToken
  | _ => False
  end.

(** The operations that run [onDisconnect]: directly, through the
    ['disconnect'] event of a socket, or by closing the sockets of a town
    that is destroyed. *)
Definition disconnects (o : Op) : Prop :=
  match o with
  | OnDisconnect _ _ | SocketDisconnected _ | DisconnectAllPlayers => True
  | _ => False
  end.

(** Every registered listener is an adapter whose socket carries the
    disconnect handler of its connection, as [connect] leaves them. *)
Definition all_connected (w : World) : Prop :=
  ∀ l, l ∈ _listeners (town w) →
       ∃ obj socket session,
         l = SocketAdapter obj socket
         ∧ (socket, DisconnectHandler l session) ∈ handlers w.

(** The town of [two_connected] with a listener of the caller's own
    registered twice. *)
Definition subscribed_twice : World :=
  addTownListener (Subscriber 7) (addTownListener (Subscriber 7) two_connected).

(** From [w] to [w'] nothing was added to the town and nothing but the
    three lists was changed. *)
Definition shrinks (w w' : World) : Prop :=
  _listeners (town w') ⊆ _listeners (town w)
  ∧ length (_listeners (town w')) ≤ length (_listeners (town w))
  ∧ _sessions (town w') ⊆ _sessions (town w)
  ∧ _players (town w') ⊆ _players (town w)
  ∧ _coveyTownID (town w') = _coveyTownID (town w)
  ∧ _townUpdatePassword (town w') = _townUpdatePassword (town w)
  ∧ _friendlyName (town w') = _friendlyName (town w)
  ∧ _isPubliclyListed (town w') = _isPubliclyListed (town w)
  ∧ handlers w' = handlers w
  ∧ next_obj w' = next_obj w.

(** What is gone once the disconnect handler of a connection has run. *)
Definition connection_gone (listener : CoveyTownListener)
    (session : PlayerSession.t) (w : World) : Prop :=
  (listener ∉ _listeners (town w))
  ∧ (∀ s, s ∈ _sessions (town w) →
          PlayerSession.sessionToken s ≠ PlayerSession.sessionToken session)
  ∧ (∀ p, p ∈ _players (town w) →
          Player.id p ≠ Player.id (PlayerSession.player session)).

(** * Properties *)

(** ** The trace *)

Lemma emitted_emit (w w' : World) (evs : list Event) :
  trace w' = trace w → emitted w (emit evs w') = evs.
Proof.
  intros Htr. unfold emitted, emit. simpl. rewrite Htr.
  apply drop_app_length.
Qed.

Lemma emitted_forEach (n : Notification) (w w' : World) :
  trace w' = trace w →
  emitted w (forEach_listener n w')
  = map (λ listener, ListenerCall listener n) (_listeners (town w')).
Proof. intros Htr. unfold forEach_listener. by apply emitted_emit. Qed.

(** A broadcast calls a listener once for each of its registrations. *)
Lemma calls_to_broadcast (l : CoveyTownListener) (n : Notification)
    (ls : list CoveyTownListener) :
  calls_to l (map (λ listener, ListenerCall listener n) ls)
  = length (filter (λ v, v = l) ls).
Proof.
  unfold calls_to. induction ls as [|v ls IH]; [done|].
  simpl map. rewrite !filter_cons. simpl callee.
  destruct (decide (v = l)) as [->|Hne].
  - rewrite decide_True by done. simpl. by rewrite IH.
  - rewrite decide_False by congruence. done.
Qed.

Lemma calls_broadcast (n : Notification) (ls : list CoveyTownListener) :
  calls (map (λ listener, ListenerCall listener n) ls) = length ls.
Proof.
  unfold calls. induction ls as [|v ls IH]; [done|].
  simpl map. rewrite filter_cons. simpl callee.
  rewrite decide_True by eauto. simpl. by rewrite IH.
Qed.

(** ** Sessions and tokens *)

Lemma find_session_None (sessionToken : string) (t : CoveyTownController) :
  find_session sessionToken t = None
  ↔ ∀ s, s ∈ _sessions t → PlayerSession.sessionToken s ≠ sessionToken.
Proof.
  unfold find_session. induction (_sessions t) as [|s ss IH]; simpl.
  - split; [|done]. intros _ s Hs. by apply elem_of_nil in Hs.
  - case_bool_decide as Htok.
    + split; [done|]. intros Hall. exfalso. apply (Hall s); [left|done].
    + rewrite IH. split.
      * intros Hall s' Hs'. apply elem_of_cons in Hs' as [->|Hs']; auto.
      * intros Hall s' Hs'. apply Hall. by right.
Qed.

Lemma find_session_Some (sessionToken : string) (t : CoveyTownController)
    (session : PlayerSession.t) :
  find_session sessionToken t = Some session →
  session ∈ _sessions t ∧ PlayerSession.sessionToken session = sessionToken.
Proof.
  unfold find_session. intros Hfind. apply List.find_some in Hfind as [Hin Htok].
  split; [by apply list_elem_of_In|].
  by apply bool_decide_eq_true in Htok.
Qed.

(** ** Joining *)

(** C4: [addPlayer] has two phases.  Before the token fetch settles, the new
    session and player are already in the town's lists and no listener has
    been called; the player-joined call goes to the listeners that are
    registered when the fetch resolves, whatever happened in between. *)
Theorem addPlayer_two_phase (sessionToken : string) (newPlayer : Player.t)
    (w : World) :
  let theSession := (addPlayer_start sessionToken newPlayer w).1 in
  let w1 := (addPlayer_start sessionToken newPlayer w).2 in
  (_players (town w1) = _players (town w) ++ [newPlayer]
   ∧ _sessions (town w1) = _sessions (town w) ++ [theSession]
   ∧ PlayerSession.player theSession = newPlayer
   ∧ PlayerSession.sessionToken theSession = sessionToken
   ∧ emitted w w1
     = [GetTokenForTown (_coveyTownID (town w)) (Player.id newPlayer)]
   ∧ calls (emitted w w1) = 0)
  ∧ ∀ (videoToken : string) (w2 : World),
      let w3 := (addPlayer_resume theSession (Some videoToken) w2).2 in
      (addPlayer_resume theSession (Some videoToken) w2).1 = Some theSession
      ∧ emitted w2 w3
        = map (λ listener,
                 ListenerCall listener (onPlayerJoined (observe w2 newPlayer)))
              (_listeners (town w2))
      ∧ calls (emitted w2 w3) = occupancy (town w2)
      ∧ town w3 = town w2
      ∧ videoTokens w3 !! PlayerSession.obj theSession = Some videoToken.
Proof.
  simpl. split.
  - repeat split; try done.
    + unfold emitted. simpl. apply drop_app_length.
    + unfold emitted. simpl. by rewrite drop_app_length.
  - intros videoToken w2. repeat split.
    + by rewrite emitted_forEach.
    + rewrite emitted_forEach by done. apply calls_broadcast.
    + apply lookup_insert_eq.
Qed.

(** C1, as stated, fails: after a failed token fetch the player and the
    session that [addPlayer] pushed are still in the town's lists. *)
Lemma failed_join_is_not_rolled_back :
  ¬ (let w' := (addPlayer "token-carol" carol None two_connected).2 in
     calls (emitted two_connected w') = 0
     ∧ _players (town w') = _players (town two_connected)
     ∧ _sessions (town w') = _sessions (town two_connected)).
Proof. intros (_ & Hplayers & _). vm_compute in Hplayers. discriminate. Qed.

(** C1, amended: a failed token fetch ends [addPlayer] with a rejection and
    without any listener call; the player and the session pushed before the
    fetch stay in the lists, and the listeners are as before. *)
Theorem addPlayer_failed_fetch (sessionToken : string) (newPlayer : Player.t)
    (w : World) :
  let theSession := (addPlayer_start sessionToken newPlayer w).1 in
  let w' := (addPlayer sessionToken newPlayer None w).2 in
  (addPlayer sessionToken newPlayer None w).1 = None
  ∧ calls (emitted w w') = 0
  ∧ emitted w w' = [GetTokenForTown (_coveyTownID (town w)) (Player.id newPlayer)]
  ∧ _players (town w') = _players (town w) ++ [newPlayer]
  ∧ _sessions (town w') = _sessions (town w) ++ [theSession]
  ∧ _listeners (town w') = _listeners (town w)
  ∧ ∀ w2 : World, addPlayer_resume theSession None w2 = (None, w2).
Proof.
  simpl. repeat split.
  - unfold emitted. simpl. by rewrite drop_app_length.
  - unfold emitted. simpl. apply drop_app_length.
Qed.

(** After a disconnect no session of the town carries the token any more. *)
Lemma onDisconnect_ends_session (listener : CoveyTownListener)
    (session : PlayerSession.t) (w : World) :
  find_session (PlayerSession.sessionToken session)
               (town (onDisconnect listener session w)) = None.
Proof.
  apply find_session_None. simpl. intros s Hs.
  by apply list_elem_of_filter in Hs as [Hne _].
Qed.

(** C3, as stated, fails: Carol's session is destroyed by a disconnect while
    her token fetch is pending, and when the fetch resolves the listeners of
    Alice and Bob are still told that she joined. *)
Lemma join_is_broadcast_after_disconnect :
  ¬ (let theSession := (addPlayer_start "token-carol" carol two_connected).1 in
     let w1 := (addPlayer_start "token-carol" carol two_connected).2 in
     let w2 := socket_disconnect 3 (connect "token-carol" 3 w1) in
     let w3 := (addPlayer_resume theSession (Some "video-carol") w2).2 in
     find_session "token-carol" (town w2) = None →
     calls (emitted w2 w3) = 0).
Proof.
  intros Hclaim. cbv zeta in Hclaim.
  assert (Hcalls := Hclaim ltac:(vm_compute; reflexivity)).
  vm_compute in Hcalls. discriminate.
Qed.

(** C3, amended: [addPlayer] does not look at the session list again when
    the fetch resolves.  In whatever state the town is by then, every
    registered listener gets its player-joined call; this is so in
    particular after a disconnect has destroyed the session, when no session
    with that token is left. *)
Theorem addPlayer_resume_does_not_recheck (theSession : PlayerSession.t)
    (videoToken : string) :
  (∀ w : World,
     let w' := (addPlayer_resume theSession (Some videoToken) w).2 in
     emitted w w'
     = map (λ listener,
              ListenerCall listener
                (onPlayerJoined (observe w (PlayerSession.player theSession))))
           (_listeners (town w))
     ∧ ∀ l, calls_to l (emitted w w') = registrations l (town w))
  ∧ ∀ (listener : CoveyTownListener) (w : World),
      let w1 := onDisconnect listener theSession w in
      let w2 := (addPlayer_resume theSession (Some videoToken) w1).2 in
      find_session (PlayerSession.sessionToken theSession) (town w1) = None
      ∧ calls (emitted w1 w2) = occupancy (town w1).
Proof.
  split.
  - intros w. simpl. rewrite emitted_forEach by done. split; [done|].
    intros l. apply calls_to_broadcast.
  - intros listener w. split; [apply onDisconnect_ends_session|].
    cbv zeta. unfold addPlayer_resume. cbn [snd].
    rewrite emitted_forEach by done. apply calls_broadcast.
Qed.

(** ** Moving *)

(** What [connect] leaves behind when it finds the session. *)
Lemma connect_accepts (sessionToken : string) (socket : Socket)
    (session : PlayerSession.t) (w : World) :
  find_session sessionToken (town w) = Some session →
  let listener := townSocketAdapter (next_obj w) socket in
  let w' := connect sessionToken socket w in
  _listeners (town w') = _listeners (town w) ++ [listener]
  ∧ _players (town w') = _players (town w)
  ∧ _sessions (town w') = _sessions (town w)
  ∧ handlers w'
    = handlers w ++ [(socket, DisconnectHandler listener session);
                     (socket, PlayerMovementHandler session)]
  ∧ trace w' = trace w
  ∧ locations w' = locations w.
Proof.
  intros Hfind. unfold connect. rewrite Hfind. simpl.
  repeat split. by rewrite <- app_assoc.
Qed.

Lemma onPlayerMovement_emitted (player : Player.t) (location : UserLocation.t)
    (w : World) :
  emitted w (onPlayerMovement player location w)
  = map (λ listener,
           ListenerCall listener (onPlayerMoved (mkArg player (Some location))))
        (_listeners (town w)).
Proof.
  unfold onPlayerMovement. rewrite emitted_forEach by done.
  unfold observe. simpl. by rewrite lookup_insert_eq.
Qed.

(** C2, as stated, fails: when Alice moves, her own listener is called with
    the player-moved notification just as Bob's is. *)
Lemma mover_is_notified_too :
  ¬ (let w' := socket_playerMovement 1 somewhere two_connected in
     calls_to bob_listener (emitted two_connected w') = 1
     ∧ calls_to alice_listener (emitted two_connected w') = 0).
Proof. intros [_ Hown]. vm_compute in Hown. discriminate. Qed.

(** C2, amended: a movement update overwrites the location of the player
    and calls every registered listener, the one of the moving occupant
    included, once for each of its registrations, with the updated player.
    The second part follows a connection from [connect] to its first
    movement message. *)
Theorem movement_reaches_every_listener :
  (∀ (player : Player.t) (location : UserLocation.t) (w : World),
     let w' := onPlayerMovement player location w in
     locations w' !! Player.obj player = Some location
     ∧ town w' = town w
     ∧ emitted w w'
       = map (λ listener,
                ListenerCall listener
                  (onPlayerMoved (mkArg player (Some location))))
             (_listeners (town w))
     ∧ ∀ l, calls_to l (emitted w w') = registrations l (town w))
  ∧ ∀ (sessionToken : string) (socket : Socket) (session : PlayerSession.t)
      (location : UserLocation.t) (w : World),
      find_session sessionToken (town w) = Some session →
      handlers_of socket w = [] →
      let own := townSocketAdapter (next_obj w) socket in
      let w1 := connect sessionToken socket w in
      let w2 := socket_playerMovement socket location w1 in
      w2 = onPlayerMovement (PlayerSession.player session) location w1
      ∧ registrations own (town w1) = registrations own (town w) + 1
      ∧ calls_to own (emitted w1 w2) = registrations own (town w) + 1.
Proof.
  split.
  - intros player location w. cbv zeta. repeat split.
    + simpl. apply lookup_insert_eq.
    + apply onPlayerMovement_emitted.
    + intros l. rewrite onPlayerMovement_emitted. apply calls_to_broadcast.
  - intros sessionToken socket session location w Hfind Hfresh. cbv zeta.
    destruct (connect_accepts sessionToken socket session w Hfind)
      as (Hls & _ & _ & Hhs & _ & _).
    assert (Hrun : socket_playerMovement socket location
                     (connect sessionToken socket w)
                   = onPlayerMovement (PlayerSession.player session) location
                       (connect sessionToken socket w)).
    { unfold socket_playerMovement. unfold handlers_of at 1. rewrite Hhs.
      rewrite filter_app, map_app. fold (handlers_of socket w). rewrite Hfresh.
      rewrite !filter_cons, filter_nil. simpl. rewrite !decide_True by done.
      done. }
    assert (Hreg : registrations (townSocketAdapter (next_obj w) socket)
                     (town (connect sessionToken socket w))
                   = registrations (townSocketAdapter (next_obj w) socket)
                       (town w) + 1).
    { unfold registrations. rewrite Hls, filter_app, length_app.
      rewrite filter_cons, filter_nil, decide_True by done. done. }
    split; [done|]. split; [done|].
    rewrite Hrun, onPlayerMovement_emitted, calls_to_broadcast.
    exact Hreg.
Qed.

Lemma movement_reaches_every_listener_witness :
  let w := (addPlayer "token-alice" alice (Some "video-alice") empty_town).2 in
  let w1 := connect "token-alice" 1 w in
  calls_to (townSocketAdapter (next_obj w) 1)
           (emitted w1 (socket_playerMovement 1 somewhere w1)) = 1.
Proof.
  cbv zeta.
  pose proof (proj2 movement_reaches_every_listener "token-alice" 1
                alice_session somewhere
                (addPlayer "token-alice" alice (Some "video-alice") empty_town).2
                eq_refl eq_refl) as (_ & _ & Hcalls).
  exact Hcalls.
Defined.

(** ** Leaving *)

Lemma town_onDisconnect (listener : CoveyTownListener)
    (session : PlayerSession.t) (w : World) :
  town (onDisconnect listener session w)
  = mkTown
      (filter (λ p, Player.id p ≠ Player.id (PlayerSession.player session))
              (_players (town w)))
      (filter (λ s, PlayerSession.sessionToken s
                    ≠ PlayerSession.sessionToken session)
              (_sessions (town w)))
      (filter (λ v, v ≠ listener) (_listeners (town w)))
      (_coveyTownID (town w)) (_friendlyName (town w))
      (_townUpdatePassword (town w)) (_isPubliclyListed (town w)).
Proof. reflexivity. Qed.

Lemma onDisconnect_emitted (listener : CoveyTownListener)
    (session : PlayerSession.t) (w : World) :
  emitted w (onDisconnect listener session w)
  = map (λ l, ListenerCall l
                (onPlayerDisconnected (observe w (PlayerSession.player session))))
        (filter (λ v, v ≠ listener) (_listeners (town w))).
Proof. unfold onDisconnect. by rewrite emitted_forEach. Qed.

Lemma filter_twice {A} (P : A → Prop) `{!∀ x, Decision (P x)} (l : list A) :
  filter P (filter P l) = filter P l.
Proof. by apply list_filter_filter_l. Qed.

Lemma registrations_removed (l listener : CoveyTownListener)
    (ls : list CoveyTownListener) :
  length (filter (λ v, v = l) (filter (λ v, v ≠ listener) ls))
  = if decide (l = listener) then 0 else length (filter (λ v, v = l) ls).
Proof.
  rewrite list_filter_filter. destruct (decide (l = listener)) as [->|Hne].
  - induction ls as [|v ls IH]; [done|].
    rewrite filter_cons, decide_False by (intros [-> ?]; done). exact IH.
  - f_equal. apply list_filter_iff. intros v. split; [by intros [? _]|].
    intros ->. done.
Qed.

(** C6, as stated, fails: a listener that is registered twice and stays
    registered is called twice, not once, with player-disconnected when
    Alice's connection ends. *)
Lemma remaining_listener_is_notified_twice :
  ¬ (let w' := onDisconnect alice_listener alice_session subscribed_twice in
     (∀ l, l ∈ _listeners (town w') →
           calls_to l (emitted subscribed_twice w') = 1)
     ∧ calls_to alice_listener (emitted subscribed_twice w') = 0).
Proof.
  intros [Hone _].
  specialize (Hone (Subscriber 7)). cbv zeta in Hone.
  assert (Hcalls := Hone ltac:(vm_compute; right; left)).
  vm_compute in Hcalls. discriminate.
Qed.

(** C6, amended: [onDisconnect] takes the listener out of the listener list,
    the session's player out of the player list and the session out of the
    session list, and then calls every remaining listener with the
    player-disconnected notification for that player: once per registration,
    so exactly once for a listener that is registered once.  The listener
    that disconnects is not called. *)
Theorem onDisconnect_removes_and_notifies (listener : CoveyTownListener)
    (session : PlayerSession.t) (w : World) :
  let w' := onDisconnect listener session w in
  let removedPlayer := PlayerSession.player session in
  (_listeners (town w') = filter (λ v, v ≠ listener) (_listeners (town w))
   ∧ listener ∉ _listeners (town w'))
  ∧ (_players (town w')
     = filter (λ p, Player.id p ≠ Player.id removedPlayer) (_players (town w))
     ∧ removedPlayer ∉ _players (town w'))
  ∧ (_sessions (town w')
     = filter (λ s, PlayerSession.sessionToken s
                    ≠ PlayerSession.sessionToken session) (_sessions (town w))
     ∧ session ∉ _sessions (town w'))
  ∧ emitted w w'
    = map (λ l, ListenerCall l (onPlayerDisconnected (observe w removedPlayer)))
          (_listeners (town w'))
  ∧ calls_to listener (emitted w w') = 0
  ∧ (∀ l, l ≠ listener →
          calls_to l (emitted w w') = registrations l (town w)
          ∧ (registrations l (town w) = 1 → calls_to l (emitted w w') = 1)).
Proof.
  cbv zeta. rewrite town_onDisconnect, onDisconnect_emitted. simpl.
  repeat split.
  - intros Hin. by apply list_elem_of_filter in Hin as [Hne _].
  - intros Hin. by apply list_elem_of_filter in Hin as [Hne _].
  - intros Hin. by apply list_elem_of_filter in Hin as [Hne _].
  - rewrite calls_to_broadcast, registrations_removed.
    by rewrite decide_True.
  - rewrite calls_to_broadcast, registrations_removed.
    by rewrite decide_False.
  - intros Hone. rewrite calls_to_broadcast, registrations_removed.
    by rewrite decide_False.
Qed.

Lemma onDisconnect_removes_and_notifies_witness :
  let w' := onDisconnect alice_listener alice_session two_connected in
  calls_to bob_listener (emitted two_connected w') = 1.
Proof.
  cbv zeta.
  pose proof (onDisconnect_removes_and_notifies alice_listener alice_session
                two_connected) as (_ & _ & _ & _ & _ & Hothers).
  apply (Hothers bob_listener); [discriminate|].
  vm_compute. reflexivity.
Defined.

(** C8, as stated, fails: Alice's socket signals its disconnection twice,
    and Bob's listener is called with player-disconnected both times. *)
Lemma second_disconnect_is_broadcast :
  ¬ (let w1 := socket_disconnect 1 two_connected in
     let w2 := socket_disconnect 1 w1 in
     occupancy (town w2) = occupancy (town w1)
     ∧ calls (emitted w1 w2) = 0).
Proof. intros [_ Hcalls]. vm_compute in Hcalls. discriminate. Qed.

(** C8, amended: a second [onDisconnect] for the same listener and session
    leaves the listener, player and session lists, and so the occupancy, as
    the first one left them; it does call every remaining listener again
    with the player-disconnected notification. *)
Theorem onDisconnect_again (listener : CoveyTownListener)
    (session : PlayerSession.t) (w : World) :
  let w1 := onDisconnect listener session w in
  let w2 := onDisconnect listener session w1 in
  town w2 = town w1
  ∧ occupancy (town w2) = occupancy (town w1)
  ∧ emitted w1 w2
    = map (λ l, ListenerCall l
                  (onPlayerDisconnected
                     (observe w (PlayerSession.player session))))
          (_listeners (town w1))
  ∧ calls (emitted w1 w2) = occupancy (town w1).
Proof.
  cbv zeta.
  assert (Htown : town (onDisconnect listener session
                          (onDisconnect listener session w))
                  = town (onDisconnect listener session w)).
  { rewrite (town_onDisconnect listener session (onDisconnect _ _ w)).
    rewrite town_onDisconnect. simpl. by rewrite !filter_twice. }
  assert (Hem : emitted (onDisconnect listener session w)
                  (onDisconnect listener session
                     (onDisconnect listener session w))
                = map (λ l, ListenerCall l
                              (onPlayerDisconnected
                                 (observe w (PlayerSession.player session))))
                      (_listeners (town (onDisconnect listener session w)))).
  { rewrite onDisconnect_emitted, town_onDisconnect. simpl.
    by rewrite filter_twice. }
  split; [done|]. split; [by rewrite Htown|]. split; [done|].
  rewrite Hem. apply calls_broadcast.
Qed.

(** ** Connecting *)

Lemma connect_without_session (sessionToken : string) (socket : Socket)
    (w : World) :
  find_session sessionToken (town w) = None →
  connect sessionToken socket w = emit [SocketDisconnect socket true] w.
Proof. intros Hfind. unfold connect. by rewrite Hfind. Qed.

(** C7: a token that no session of the town carries makes [connect]
    disconnect the socket and do nothing else: no listener is registered, no
    handler is installed and no listener is called.  The token of a session
    that a disconnect has destroyed is such a token, so presenting it again
    adds no listener. *)
Theorem connect_rejects_unknown_token :
  (∀ (sessionToken : string) (socket : Socket) (w : World),
     (∀ s, s ∈ _sessions (town w) →
           PlayerSession.sessionToken s ≠ sessionToken) →
     let w' := connect sessionToken socket w in
     emitted w w' = [SocketDisconnect socket true]
     ∧ flat_map socket_actions (emitted w w') = [Disconnect socket true]
     ∧ calls (emitted w w') = 0
     ∧ town w' = town w
     ∧ occupancy (town w') = occupancy (town w)
     ∧ handlers w' = handlers w)
  ∧ ∀ (listener : CoveyTownListener) (session : PlayerSession.t)
      (socket : Socket) (w : World),
      let w1 := onDisconnect listener session w in
      let w2 := connect (PlayerSession.sessionToken session) socket w1 in
      emitted w1 w2 = [SocketDisconnect socket true]
      ∧ _listeners (town w2) = _listeners (town w1)
      ∧ (listener ∉ _listeners (town w2))
      ∧ handlers w2 = handlers w1.
Proof.
  split.
  - intros sessionToken socket w Hnone. cbv zeta.
    apply find_session_None in Hnone.
    rewrite (connect_without_session _ _ _ Hnone).
    rewrite emitted_emit by done. repeat split.
  - intros listener session socket w. cbv zeta.
    rewrite (connect_without_session _ _ _
               (onDisconnect_ends_session listener session w)).
    rewrite emitted_emit by done. repeat split.
    simpl. intros Hin. by apply list_elem_of_filter in Hin as [Hne _].
Qed.

Lemma connect_rejects_unknown_token_witness :
  emitted two_connected (connect "no-such-token" 3 two_connected)
  = [SocketDisconnect 3 true].
Proof.
  refine (proj1 (proj1 connect_rejects_unknown_token "no-such-token" 3
                   two_connected _)).
  intros s Hs. vm_compute in Hs.
  apply elem_of_cons in Hs as [->|Hs]; [discriminate|].
  apply elem_of_cons in Hs as [->|Hs]; [discriminate|].
  by apply elem_of_nil in Hs.
Defined.

(** ** Growing traces *)

Lemma grows_refl (P : Event → Prop) (w : World) : grows P w w.
Proof. exists []. by rewrite app_nil_r. Qed.

Lemma grows_trans (P : Event → Prop) (w1 w2 w3 : World) :
  grows P w1 w2 → grows P w2 w3 → grows P w1 w3.
Proof.
  intros (evs1 & Htr1 & HP1) (evs2 & Htr2 & HP2). exists (evs1 ++ evs2).
  split; [by rewrite Htr2, Htr1, app_assoc|]. by apply Forall_app.
Qed.

Lemma grows_weaken (P Q : Event → Prop) (w w' : World) :
  (∀ e, P e → Q e) → grows P w w' → grows Q w w'.
Proof.
  intros HPQ (evs & Htr & HP). exists evs. split; [done|].
  by eapply Forall_impl.
Qed.

Lemma grows_emitted (P : Event → Prop) (w w' : World) :
  grows P w w' → trace w' = trace w ++ emitted w w' ∧ Forall P (emitted w w').
Proof.
  intros (evs & Htr & HP). unfold emitted. by rewrite Htr, drop_app_length.
Qed.

Lemma grows_same (P : Event → Prop) (w w' : World) :
  trace w' = trace w → grows P w w'.
Proof. intros Htr. exists []. by rewrite app_nil_r. Qed.

Lemma grows_forEach (P : Event → Prop) (n : Notification) (w w' : World) :
  trace w' = trace w →
  (∀ l, l ∈ _listeners (town w') → P (ListenerCall l n)) →
  grows P w (forEach_listener n w').
Proof.
  intros Htr HP. eexists. split; [simpl; by rewrite Htr|].
  apply Forall_forall. intros e He. apply list_elem_of_In, in_map_iff in He.
  destruct He as (l & <- & Hl). apply HP. by apply list_elem_of_In.
Qed.

Lemma player_call_mono (ls ls' : list CoveyTownListener) (e : Event) :
  ls' ⊆ ls → player_call ls' e → player_call ls e.
Proof. intros Hsub (l & n & He & Hl & Hn). exists l, n. auto. Qed.

Lemma handled_refl (w : World) : handled w w.
Proof. unfold handled. split; [apply grows_refl|done]. Qed.

Lemma handled_trans (w1 w2 w3 : World) :
  handled w1 w2 → handled w2 w3 → handled w1 w3.
Proof.
  intros (Hg1 & Hs1 & Hi1 & Hp1 & Hf1 & Hv1 & Hh1 & Hn1)
         (Hg2 & Hs2 & Hi2 & Hp2 & Hf2 & Hv2 & Hh2 & Hn2).
  unfold handled. split.
  { eapply grows_trans; [exact Hg1|].
    eapply grows_weaken; [|exact Hg2]. intros e. by apply player_call_mono. }
  split; [by etrans|]. repeat split; congruence.
Qed.

Lemma onDisconnect_handled (listener : CoveyTownListener)
    (session : PlayerSession.t) (w : World) :
  handled w (onDisconnect listener session w).
Proof.
  unfold handled. rewrite town_onDisconnect. simpl. split.
  - apply grows_forEach; [done|]. simpl. intros l Hl.
    exists l, (onPlayerDisconnected (observe w (PlayerSession.player session))).
    split; [done|]. split; [|done].
    by apply list_elem_of_filter in Hl as [_ ?].
  - split; [apply list_subseteq_filter; apply _|done].
Qed.

Lemma onPlayerMovement_handled (player : Player.t) (location : UserLocation.t)
    (w : World) :
  handled w (onPlayerMovement player location w).
Proof.
  unfold handled. simpl. split; [|done].
  apply grows_forEach; [done|]. simpl. intros l Hl. eexists l, _.
  split; [done|]. split; [done|]. discriminate.
Qed.

Lemma handlers_handled (f : Handler → World → World) (hs : list Handler)
    (w : World) :
  (∀ h w, handled w (f h w)) → handled w (foldl (λ w h, f h w) w hs).
Proof.
  intros Hf. revert w. induction hs as [|h hs IH]; intros w.
  - apply handled_refl.
  - simpl. eapply handled_trans; [apply Hf|apply IH].
Qed.

Lemma socket_disconnect_handled (socket : Socket) (w : World) :
  handled w (socket_disconnect socket w).
Proof.
  apply handlers_handled. intros [listener session|session] w'.
  - apply onDisconnect_handled.
  - apply handled_refl.
Qed.

Lemma socket_playerMovement_handled (socket : Socket)
    (movementData : UserLocation.t) (w : World) :
  handled w (socket_playerMovement socket movementData w).
Proof.
  apply handlers_handled. intros [listener session|session] w'.
  - apply handled_refl.
  - apply onPlayerMovement_handled.
Qed.

Lemma handlers_fold (R : World → World → Prop) (f : Handler → World → World)
    (hs : list Handler) (w : World) :
  (∀ w, R w w) → (∀ a b c, R a b → R b c → R a c) →
  (∀ h w, R w (f h w)) → R w (foldl (λ w h, f h w) w hs).
Proof.
  intros Hrefl Htrans Hf. revert w. induction hs as [|h hs IH]; intros w.
  - apply Hrefl.
  - simpl. eapply Htrans; [apply Hf|apply IH].
Qed.

Lemma filter_all {A} (P : A → Prop) `{!∀ x, Decision (P x)} (l : list A) :
  (∀ x, x ∈ l → P x) → filter P l = l.
Proof.
  induction l as [|a l IH]; [done|]. intros Hall.
  rewrite filter_cons, decide_True by (apply Hall; left).
  f_equal. apply IH. intros x Hx. apply Hall. by right.
Qed.

Lemma filter_all_out {A} (P : A → Prop) `{!∀ x, Decision (P x)} (l : list A) :
  (∀ x, x ∈ l → ¬ P x) → filter P l = [].
Proof.
  induction l as [|a l IH]; [done|]. intros Hall.
  rewrite filter_cons, decide_False by (apply Hall; left).
  apply IH. intros x Hx. apply Hall. by right.
Qed.

(** ** The loop of [disconnectAllPlayers] *)

Lemma shrinks_refl (w : World) : shrinks w w.
Proof. unfold shrinks. repeat split; done. Qed.

Lemma shrinks_trans (a b c : World) : shrinks a b → shrinks b c → shrinks a c.
Proof.
  intros (Hl1 & Hn1 & Hs1 & Hp1 & Hi1 & Hw1 & Hf1 & Hv1 & Hh1 & Ho1)
         (Hl2 & Hn2 & Hs2 & Hp2 & Hi2 & Hw2 & Hf2 & Hv2 & Hh2 & Ho2).
  unfold shrinks.
  split; [by etrans|]. split; [lia|]. split; [by etrans|].
  split; [by etrans|]. repeat split; congruence.
Qed.

Lemma shrinks_emit (evs : list Event) (w : World) : shrinks w (emit evs w).
Proof. unfold shrinks. simpl. repeat split; done. Qed.

Lemma onDisconnect_shrinks (listener : CoveyTownListener)
    (session : PlayerSession.t) (w : World) :
  shrinks w (onDisconnect listener session w).
Proof.
  unfold shrinks. rewrite town_onDisconnect. simpl.
  split; [apply list_subseteq_filter; apply _|].
  split; [apply length_filter|].
  split; [apply list_subseteq_filter; apply _|].
  split; [apply list_subseteq_filter; apply _|done].
Qed.

Lemma run_disconnect_shrinks (h : Handler) (w : World) :
  shrinks w (run_disconnect h w).
Proof.
  destruct h; [apply onDisconnect_shrinks|apply shrinks_refl].
Qed.

Lemma socket_disconnect_shrinks (socket : Socket) (w : World) :
  shrinks w (socket_disconnect socket w).
Proof.
  apply (handlers_fold shrinks).
  - apply shrinks_refl.
  - apply shrinks_trans.
  - apply run_disconnect_shrinks.
Qed.

(** The loop, for any property of two states that passes through its
    steps. *)
Lemma destroy_fold (R : World → World → Prop) (ls : list CoveyTownListener)
    (w : World) :
  (∀ w, R w w) → (∀ a b c, R a b → R b c → R a c) →
  (∀ l w, l ∈ ls → R w (emit [ListenerCall l onTownDestroyed] w)) →
  (∀ l s w, R w (onDisconnect l s w)) →
  R w (foldl (λ w l, call_onTownDestroyed l w) w ls).
Proof.
  intros Hrefl Htrans Hemit Hdisc. revert w.
  induction ls as [|l ls IH]; intros w; [apply Hrefl|].
  simpl. eapply Htrans; [|apply IH; intros l' w' Hl'; apply Hemit; by right].
  unfold call_onTownDestroyed. eapply Htrans; [apply Hemit; left|].
  destruct l as [obj socket|obj]; [|apply Hrefl].
  apply (handlers_fold R); [done|done|].
  intros [listener session|session] w'; [apply Hdisc|apply Hrefl].
Qed.

Lemma disconnectAllPlayers_shrinks (w : World) :
  shrinks w (disconnectAllPlayers w).
Proof.
  apply (destroy_fold shrinks).
  - apply shrinks_refl.
  - apply shrinks_trans.
  - intros l w' _. apply shrinks_emit.
  - apply onDisconnect_shrinks.
Qed.

Lemma disconnectAllPlayers_grows (w : World) :
  grows (λ e, (∃ l, l ∈ _listeners (town w)
                    ∧ e = ListenerCall l onTownDestroyed)
              ∨ player_call (_listeners (town w)) e)
        w (disconnectAllPlayers w).
Proof.
  set (L := _listeners (town w)).
  set (P := λ e, (∃ l, l ∈ L ∧ e = ListenerCall l onTownDestroyed)
                 ∨ player_call L e).
  assert (Hfold : _listeners (town w) ⊆ L →
                  grows P w (disconnectAllPlayers w)
                  ∧ _listeners (town (disconnectAllPlayers w)) ⊆ L).
  { apply (destroy_fold
             (λ a b, _listeners (town a) ⊆ L →
                     grows P a b ∧ _listeners (town b) ⊆ L)).
    - intros a Ha. split; [apply grows_refl|done].
    - intros a b c Hab Hbc Ha. destruct (Hab Ha) as [Hg1 Hb].
      destruct (Hbc Hb) as [Hg2 Hc]. split; [|done].
      by eapply grows_trans.
    - intros l a Hl Ha. split; [|done]. eexists. split; [reflexivity|].
      constructor; [|done]. left. by exists l.
    - intros l s a Ha.
      destruct (onDisconnect_handled l s a) as (Hg & Hsub & _).
      split; [|by etrans].
      eapply grows_weaken; [|exact Hg]. intros e He. right.
      by eapply player_call_mono. }
  by apply Hfold.
Qed.

Lemma destroyed_calls_to_app (l : CoveyTownListener) (evs1 evs2 : list Event) :
  destroyed_calls_to l (evs1 ++ evs2)
  = destroyed_calls_to l evs1 + destroyed_calls_to l evs2.
Proof. unfold destroyed_calls_to. by rewrite filter_app, length_app. Qed.

Lemma destroyed_calls_to_player (l : CoveyTownListener)
    (ls : list CoveyTownListener) (evs : list Event) :
  Forall (player_call ls) evs → destroyed_calls_to l evs = 0.
Proof.
  intros Hall. unfold destroyed_calls_to.
  rewrite filter_all_out; [done|]. intros e He ->.
  rewrite Forall_forall in Hall.
  destruct (Hall _ He) as (l' & n & Heq & _ & Hn). congruence.
Qed.

Lemma call_onTownDestroyed_trace (l : CoveyTownListener) (w : World) :
  ∃ evs, trace (call_onTownDestroyed l w)
         = trace w ++ ListenerCall l onTownDestroyed :: evs
         ∧ Forall (player_call (_listeners (town w))) evs.
Proof.
  unfold call_onTownDestroyed. destruct l as [obj socket|obj].
  - destruct (socket_disconnect_handled socket
                (emit [ListenerCall (SocketAdapter obj socket) onTownDestroyed] w))
      as ((evs & Htr & Hall) & _).
    exists evs. split; [|done]. rewrite Htr. simpl. by rewrite <- app_assoc.
  - by exists [].
Qed.

Lemma destroy_fold_calls (l : CoveyTownListener) (ls : list CoveyTownListener)
    (w : World) :
  ∃ evs, trace (foldl (λ w l, call_onTownDestroyed l w) w ls) = trace w ++ evs
         ∧ destroyed_calls_to l evs = length (filter (λ v, v = l) ls).
Proof.
  revert w. induction ls as [|l' ls IH]; intros w.
  - exists []. by rewrite app_nil_r.
  - simpl foldl. destruct (call_onTownDestroyed_trace l' w) as (evs1 & Htr1 & Hall).
    destruct (IH (call_onTownDestroyed l' w)) as (evs2 & Htr2 & Hcount).
    exists ((ListenerCall l' onTownDestroyed :: evs1) ++ evs2). split.
    + by rewrite Htr2, Htr1, app_assoc.
    + rewrite destroyed_calls_to_app, Hcount.
      change (ListenerCall l' onTownDestroyed :: evs1)
        with ([ListenerCall l' onTownDestroyed] ++ evs1).
      rewrite destroyed_calls_to_app, (destroyed_calls_to_player _ _ _ Hall).
      unfold destroyed_calls_to. rewrite !filter_cons, filter_nil.
      destruct (decide (l' = l)) as [->|Hne].
      * rewrite decide_True by done. simpl. lia.
      * rewrite decide_False by congruence. simpl. lia.
Qed.

(** The town-destroyed broadcast calls a listener once for each of its
    registrations, whatever the sockets do while it runs. *)
Lemma disconnectAllPlayers_destroyed_calls (l : CoveyTownListener) (w : World) :
  destroyed_calls_to l (emitted w (disconnectAllPlayers w))
  = registrations l (town w).
Proof.
  destruct (destroy_fold_calls l (_listeners (town w)) w) as (evs & Htr & Hcount).
  unfold emitted, disconnectAllPlayers. by rewrite Htr, drop_app_length.
Qed.

Lemma destroy_fold_shrinks (ls : list CoveyTownListener) (w : World) :
  shrinks w (foldl (λ w l, call_onTownDestroyed l w) w ls).
Proof.
  apply (destroy_fold shrinks).
  - apply shrinks_refl.
  - apply shrinks_trans.
  - intros l w' _. apply shrinks_emit.
  - apply onDisconnect_shrinks.
Qed.

Lemma connection_gone_shrinks (listener : CoveyTownListener)
    (session : PlayerSession.t) (w w' : World) :
  shrinks w w' → connection_gone listener session w →
  connection_gone listener session w'.
Proof.
  intros (Hl & _ & Hs & Hp & _) (Hgl & Hgs & Hgp). unfold connection_gone.
  split; [|split].
  - intros Hin. apply Hgl. by apply Hl.
  - intros s Hin. apply Hgs. by apply Hs.
  - intros p Hin. apply Hgp. by apply Hp.
Qed.

Lemma onDisconnect_connection_gone (listener : CoveyTownListener)
    (session : PlayerSession.t) (w : World) :
  connection_gone listener session (onDisconnect listener session w).
Proof.
  unfold connection_gone. rewrite town_onDisconnect. simpl.
  split; [|split].
  - intros Hin. by apply list_elem_of_filter in Hin as [Hne _].
  - intros s Hin. by apply list_elem_of_filter in Hin as [Hne _].
  - intros p Hin. by apply list_elem_of_filter in Hin as [Hne _].
Qed.

Lemma socket_disconnect_connection_gone (socket : Socket)
    (listener : CoveyTownListener) (session : PlayerSession.t) (w : World) :
  (socket, DisconnectHandler listener session) ∈ handlers w →
  connection_gone listener session (socket_disconnect socket w).
Proof.
  intros Hin.
  assert (Hh : DisconnectHandler listener session ∈ handlers_of socket w).
  { unfold handlers_of. apply list_elem_of_In, in_map_iff.
    exists (socket, DisconnectHandler listener session). split; [done|].
    apply list_elem_of_In, list_elem_of_filter. done. }
  unfold socket_disconnect.
  apply list_elem_of_split in Hh as (hs1 & hs2 & ->).
  rewrite foldl_app. simpl.
  eapply connection_gone_shrinks; [|apply onDisconnect_connection_gone].
  apply (handlers_fold shrinks).
  - apply shrinks_refl.
  - apply shrinks_trans.
  - apply run_disconnect_shrinks.
Qed.

Lemma destroy_fold_connection_gone (ls : list CoveyTownListener)
    (obj : nat) (socket : Socket) (session : PlayerSession.t) (w : World) :
  SocketAdapter obj socket ∈ ls →
  (socket, DisconnectHandler (SocketAdapter obj socket) session) ∈ handlers w →
  connection_gone (SocketAdapter obj socket) session
    (foldl (λ w l, call_onTownDestroyed l w) w ls).
Proof.
  intros Hin Hh. apply list_elem_of_split in Hin as (ls1 & ls2 & ->).
  rewrite foldl_app. simpl foldl.
  eapply connection_gone_shrinks; [apply destroy_fold_shrinks|].
  unfold call_onTownDestroyed.
  apply socket_disconnect_connection_gone. cbn [handlers emit].
  destruct (destroy_fold_shrinks ls1 w) as (_ & _ & _ & _ & _ & _ & _ & _ & Hhs & _).
  unfold call_onTownDestroyed in Hhs. by rewrite Hhs.
Qed.

(** In a town where every listener is the adapter of a connection, the
    loop leaves no listener. *)
Lemma disconnectAllPlayers_all_connected (w : World) :
  all_connected w → _listeners (town (disconnectAllPlayers w)) = [].
Proof.
  intros Hall.
  destruct (_listeners (town (disconnectAllPlayers w))) as [|l ls] eqn:Hls;
    [done|].
  exfalso.
  assert (Hl : l ∈ _listeners (town (disconnectAllPlayers w)))
    by (rewrite Hls; left).
  assert (Hl0 : l ∈ _listeners (town w)).
  { by apply (disconnectAllPlayers_shrinks w). }
  destruct (Hall l Hl0) as (obj & socket & session & -> & Hh).
  destruct (destroy_fold_connection_gone (_listeners (town w)) obj socket
              session w Hl0 Hh) as (Hgone & _).
  by apply Hgone.
Qed.

(** ** Registering listeners *)

Lemma length_filter_ne (l : CoveyTownListener) (ls : list CoveyTownListener) :
  length (filter (λ v, v ≠ l) ls) + length (filter (λ v, v = l) ls)
  = length ls.
Proof.
  induction ls as [|v ls IH]; [done|].
  rewrite !filter_cons. destruct (decide (v = l)) as [->|Hne].
  - rewrite decide_False by auto. simpl. lia.
  - rewrite decide_True by done. simpl. lia.
Qed.

Lemma filter_ne_self (l : CoveyTownListener) (ls : list CoveyTownListener) :
  filter (λ v, v = l) (filter (λ v, v ≠ l) ls) = [].
Proof.
  rewrite list_filter_filter. induction ls as [|v ls IH]; [done|].
  rewrite filter_cons, decide_False by (intros [-> ?]; done). exact IH.
Qed.

(** C10: [addTownListener] does not look for duplicates.  Registering a
    listener twice appends it twice: it counts twice in the occupancy and
    every broadcast calls it once for each registration: a move, a completed
    join, the disconnection of another listener, and the town-destroyed
    broadcast, whatever the closing sockets add to the trace while that one
    runs.  One [removeTownListener] takes all its registrations out. *)
Theorem addTownListener_twice (listener : CoveyTownListener) (w : World) :
  let w2 := addTownListener listener (addTownListener listener w) in
  let w3 := removeTownListener listener w2 in
  _listeners (town w2) = _listeners (town w) ++ [listener; listener]
  ∧ registrations listener (town w2) = registrations listener (town w) + 2
  ∧ occupancy (town w2) = occupancy (town w) + 2
  ∧ (∀ n, calls_to listener (emitted w2 (forEach_listener n w2))
          = registrations listener (town w2))
  ∧ (∀ player location,
       calls_to listener (emitted w2 (onPlayerMovement player location w2))
       = registrations listener (town w2))
  ∧ (∀ theSession videoToken,
       calls_to listener
         (emitted w2 (addPlayer_resume theSession (Some videoToken) w2).2)
       = registrations listener (town w2))
  ∧ (∀ other session,
       calls_to listener (emitted w2 (onDisconnect other session w2))
       = if decide (listener = other) then 0
         else registrations listener (town w2))
  ∧ destroyed_calls_to listener (emitted w2 (disconnectAllPlayers w2))
    = registrations listener (town w2)
  ∧ _listeners (town w3) = filter (λ v, v ≠ listener) (_listeners (town w))
  ∧ registrations listener (town w3) = 0
  ∧ listener ∉ _listeners (town w3).
Proof.
  cbv zeta.
  assert (Hls : _listeners (town (addTownListener listener
                                    (addTownListener listener w)))
                = _listeners (town w) ++ [listener; listener]).
  { simpl. by rewrite <- app_assoc. }
  split; [done|]. split.
  { unfold registrations. rewrite Hls, filter_app, length_app.
    rewrite !filter_cons, filter_nil, !decide_True by done. done. }
  split.
  { unfold occupancy. by rewrite Hls, length_app. }
  split.
  { intros n. rewrite emitted_forEach by done. apply calls_to_broadcast. }
  split.
  { intros player location. rewrite onPlayerMovement_emitted.
    apply calls_to_broadcast. }
  split.
  { intros theSession videoToken. unfold addPlayer_resume. cbn [snd].
    rewrite emitted_forEach by done. apply calls_to_broadcast. }
  split.
  { intros other session.
    by rewrite onDisconnect_emitted, calls_to_broadcast, registrations_removed. }
  split.
  { apply disconnectAllPlayers_destroyed_calls. }
  assert (Hrm : _listeners (town (removeTownListener listener
                   (addTownListener listener (addTownListener listener w))))
                = filter (λ v, v ≠ listener) (_listeners (town w))).
  { change (filter (λ v, v ≠ listener)
              (_listeners (town (addTownListener listener
                                   (addTownListener listener w))))
            = filter (λ v, v ≠ listener) (_listeners (town w))).
    rewrite Hls, filter_app.
    rewrite !filter_cons, filter_nil, !decide_False by auto.
    apply app_nil_r. }
  split; [done|]. split.
  - unfold registrations. rewrite Hrm, filter_ne_self. done.
  - rewrite Hrm. intros Hin. by apply list_elem_of_filter in Hin as [Hne _].
Qed.

(** ** Updating the town *)

Lemma length_zero_empty (s : string) :
  (String.length s =? 0)%nat = true ↔ s = ""%string.
Proof.
  destruct s as [|c s]; simpl; split; try done.
Qed.

(** C5: [update] returns [false] and changes nothing when the password does
    not match or when the friendly name that is given is empty (a visibility
    given with it is dropped too); otherwise it returns [true] and applies
    the friendly name, if given, and the visibility, if given. *)
Theorem update_as_described (coveyTownPassword : string)
    (friendlyName : option string) (makePublic : option bool)
    (t : CoveyTownController) :
  update coveyTownPassword friendlyName makePublic t
  = update_described coveyTownPassword friendlyName makePublic t
  ∧ (update_rejects coveyTownPassword friendlyName t →
       update coveyTownPassword friendlyName makePublic t = (false, t))
  ∧ (¬ update_rejects coveyTownPassword friendlyName t →
       let t' := (update coveyTownPassword friendlyName makePublic t).2 in
       (update coveyTownPassword friendlyName makePublic t).1 = true
       ∧ _friendlyName t' = default (_friendlyName t) friendlyName
       ∧ _isPubliclyListed t' = default (_isPubliclyListed t) makePublic).
Proof.
  assert (Heq : update coveyTownPassword friendlyName makePublic t
                = update_described coveyTownPassword friendlyName makePublic t).
  { unfold update, update_described, update_rejects.
    destruct (passwordMatches coveyTownPassword (_townUpdatePassword t)) eqn:Hpw;
      destruct friendlyName as [[|c s]|]; destruct makePublic;
      case_bool_decide as Hrej; cbn;
      try reflexivity; try (destruct t; reflexivity);
      try (exfalso; apply Hrej; auto; fail);
      destruct Hrej; discriminate. }
  split; [exact Heq|]. rewrite Heq. unfold update_described. split.
  - intros Hrej. by rewrite bool_decide_eq_true_2.
  - intros Hok. by rewrite bool_decide_eq_false_2.
Qed.

(** ** Occupancy *)

(** C9: after any history the occupancy is the length of the listener list.
    The operations move it as they move that list: [addPlayer] not at all,
    although it adds a player; [disconnectAllPlayers] never up, and down to
    zero when every listener is the adapter of a connection, whose socket it
    closes.  A town whose only player has joined without connecting has one
    player and occupancy zero. *)
Theorem occupancy_counts_listeners :
  (∀ (ops : list Op) (w : World),
     occupancy (town (run ops w)) = length (_listeners (town (run ops w))))
  ∧ (∀ w : World,
       (∀ sessionToken newPlayer,
          let w' := (addPlayer_start sessionToken newPlayer w).2 in
          occupancy (town w') = occupancy (town w)
          ∧ length (_players (town w')) = S (length (_players (town w))))
       ∧ (∀ theSession fetched,
            occupancy (town (addPlayer_resume theSession fetched w).2)
            = occupancy (town w))
       ∧ (∀ sessionToken socket,
            occupancy (town (connect sessionToken socket w))
            = match find_session sessionToken (town w) with
              | Some _ => S (occupancy (town w))
              | None => occupancy (town w)
              end)
       ∧ (∀ listener,
            occupancy (town (addTownListener listener w))
            = S (occupancy (town w)))
       ∧ (∀ listener,
            occupancy (town (removeTownListener listener w))
            = occupancy (town w) - registrations listener (town w))
       ∧ (∀ listener session,
            occupancy (town (onDisconnect listener session w))
            = occupancy (town w) - registrations listener (town w))
       ∧ occupancy (town (disconnectAllPlayers w)) ≤ occupancy (town w)
       ∧ (all_connected w → occupancy (town (disconnectAllPlayers w)) = 0))
  ∧ ∃ ops : list Op,
      let t := town (run ops empty_town) in
      length (_players t) = 1 ∧ occupancy t = 0.
Proof.
  split; [done|]. split.
  - intros w. repeat split.
    + simpl. by rewrite length_app, Nat.add_comm.
    + intros theSession [videoToken|]; done.
    + intros sessionToken socket. unfold connect.
      destruct (find_session sessionToken (town w)); [|done].
      unfold occupancy. simpl. by rewrite length_app, Nat.add_comm.
    + intros listener. unfold occupancy. simpl.
      by rewrite length_app, Nat.add_comm.
    + intros listener. unfold occupancy, registrations. simpl.
      pose proof (length_filter_ne listener (_listeners (town w))). lia.
    + intros listener session. rewrite town_onDisconnect.
      unfold occupancy, registrations. simpl.
      pose proof (length_filter_ne listener (_listeners (town w))). lia.
    + by destruct (disconnectAllPlayers_shrinks w) as (_ & Hlen & _).
    + intros Hall. unfold occupancy.
      by rewrite (disconnectAllPlayers_all_connected w Hall).
  - exists [AddPlayerStart "token-alice" alice;
            AddPlayerResume alice_session (Some "video-alice"%string)].
    vm_compute. done.
Qed.

(** * Further properties of the controller *)

(** ** Listener list *)

Lemma with_town_same (t : CoveyTownController) (w : World) :
  t = town w → with_town (λ _, t) w = w.
Proof. intros ->. by destruct w. Qed.

Lemma set_listeners_same (t : CoveyTownController) :
  set_listeners (_listeners t) t = t.
Proof. by destruct t. Qed.

(** X1: [removeTownListener] with a listener that is not registered changes
    nothing; with any listener, the others keep their registrations. *)
Theorem removeTownListener_unregistered (listener : CoveyTownListener)
    (w : World) :
  (listener ∉ _listeners (town w) → removeTownListener listener w = w)
  ∧ ∀ l, l ≠ listener →
         registrations l (town (removeTownListener listener w))
         = registrations l (town w).
Proof.
  split.
  - intros Hout. unfold removeTownListener, with_town.
    rewrite filter_all by (intros v Hv ->; done).
    rewrite set_listeners_same. by destruct w.
  - intros l Hne. unfold registrations. simpl.
    rewrite registrations_removed. by rewrite decide_False.
Qed.

Lemma removeTownListener_unregistered_witness :
  removeTownListener (Subscriber 7) two_connected = two_connected.
Proof.
  apply (proj1 (removeTownListener_unregistered (Subscriber 7) two_connected)).
  intros Hin. vm_compute in Hin.
  apply elem_of_cons in Hin as [Heq|Hin]; [discriminate|].
  apply elem_of_cons in Hin as [Heq|Hin]; [discriminate|].
  by apply elem_of_nil in Hin.
Defined.

(** X2: Registering a listener that was not registered and removing it again
    gives back the town as it was. *)
Theorem addTownListener_then_remove (listener : CoveyTownListener) (w : World) :
  listener ∉ _listeners (town w) →
  removeTownListener listener (addTownListener listener w) = w.
Proof.
  intros Hout. unfold removeTownListener, addTownListener, with_town. simpl.
  rewrite filter_app, filter_cons, filter_nil, decide_False by auto.
  rewrite app_nil_r, filter_all by (intros v Hv ->; done).
  destruct w as [t ? ? ? ? ?]. by destruct t.
Qed.

Lemma addTownListener_then_remove_witness :
  removeTownListener (Subscriber 7) (addTownListener (Subscriber 7) two_connected)
  = two_connected.
Proof.
  apply addTownListener_then_remove.
  intros Hin. vm_compute in Hin.
  apply elem_of_cons in Hin as [Heq|Hin]; [discriminate|].
  apply elem_of_cons in Hin as [Heq|Hin]; [discriminate|].
  by apply elem_of_nil in Hin.
Defined.

(** ** Accepted connections *)

Lemma find_session_live (sessionToken : string) (t : CoveyTownController)
    (s : PlayerSession.t) :
  s ∈ _sessions t → PlayerSession.sessionToken s = sessionToken →
  ∃ session, find_session sessionToken t = Some session.
Proof.
  intros Hin Htok. destruct (find_session sessionToken t) eqn:Hfind; [eauto|].
  exfalso. by apply (proj1 (find_session_None sessionToken t) Hfind s).
Qed.

Lemma find_session_push (sessionToken : string) (t : CoveyTownController)
    (theSession : PlayerSession.t) :
  find_session sessionToken (set_sessions (_sessions t ++ [theSession]) t)
  = match find_session sessionToken t with
    | Some session => Some session
    | None =>
        if bool_decide (PlayerSession.sessionToken theSession = sessionToken)
        then Some theSession else None
    end.
Proof.
  unfold find_session. simpl. induction (_sessions t) as [|s ss IH]; [done|].
  simpl. by destruct (bool_decide (PlayerSession.sessionToken s = sessionToken)).
Qed.

(** X3: [connect] with a token that a session of the town carries accepts the
    socket: it picks a session with that token, appends one new listener
    and installs the two handlers bound to that session; it calls no
    listener, does not disconnect the socket and leaves players and sessions
    alone. *)
Theorem connect_accepts_live_token (sessionToken : string) (socket : Socket)
    (s : PlayerSession.t) (w : World) :
  s ∈ _sessions (town w) → PlayerSession.sessionToken s = sessionToken →
  ∃ session,
    let listener := townSocketAdapter (next_obj w) socket in
    let w' := connect sessionToken socket w in
    session ∈ _sessions (town w)
    ∧ PlayerSession.sessionToken session = sessionToken
    ∧ _listeners (town w') = _listeners (town w) ++ [listener]
    ∧ handlers w'
      = handlers w ++ [(socket, DisconnectHandler listener session);
                       (socket, PlayerMovementHandler session)]
    ∧ emitted w w' = []
    ∧ _players (town w') = _players (town w)
    ∧ _sessions (town w') = _sessions (town w)
    ∧ next_obj w' = S (next_obj w).
Proof.
  intros Hin Htok.
  destruct (find_session_live sessionToken (town w) s Hin Htok)
    as [session Hfind].
  exists session. cbv zeta.
  destruct (find_session_Some _ _ _ Hfind) as [Hsin Hstok].
  destruct (connect_accepts sessionToken socket session w Hfind)
    as (Hls & Hps & Hss & Hhs & Htr & _).
  repeat split; try done.
  - unfold emitted. rewrite Htr. apply drop_all.
  - unfold connect. by rewrite Hfind.
Qed.

Lemma connect_accepts_live_token_witness :
  ∃ session,
    PlayerSession.sessionToken session = "token-bob"%string
    ∧ _listeners (town (connect "token-bob" 5 two_connected))
      = _listeners (town two_connected)
        ++ [townSocketAdapter (next_obj two_connected) 5].
Proof.
  destruct (connect_accepts_live_token "token-bob" 5 bob_session two_connected)
    as (session & _ & Htok & Hls & _).
  - vm_compute. right. left.
  - reflexivity.
  - exists session. split; [exact Htok|exact Hls].
Defined.

(** X4: A session can be connected to as soon as [addPlayer] has pushed it,
    before the token fetch has settled; unless an older session carries the
    same token, the connection is bound to the new session. *)
Theorem pending_join_accepts_connect (sessionToken : string)
    (newPlayer : Player.t) (socket : Socket) (w : World) :
  let theSession := (addPlayer_start sessionToken newPlayer w).1 in
  let w1 := (addPlayer_start sessionToken newPlayer w).2 in
  (∃ session,
     find_session sessionToken (town w1) = Some session
     ∧ PlayerSession.sessionToken session = sessionToken
     ∧ handlers (connect sessionToken socket w1)
       = handlers w
         ++ [(socket, DisconnectHandler
                        (townSocketAdapter (S (next_obj w)) socket) session);
             (socket, PlayerMovementHandler session)])
  ∧ occupancy (town (connect sessionToken socket w1)) = S (occupancy (town w))
  ∧ (find_session sessionToken (town w) = None →
     find_session sessionToken (town w1) = Some theSession).
Proof.
  cbv zeta.
  assert (Hfind : find_session sessionToken
                    (town (addPlayer_start sessionToken newPlayer w).2)
                  = match find_session sessionToken (town w) with
                    | Some session => Some session
                    | None => Some (addPlayer_start sessionToken newPlayer w).1
                    end).
  { change (town (addPlayer_start sessionToken newPlayer w).2)
      with (set_players (_players (town w) ++ [newPlayer])
              (set_sessions (_sessions (town w)
                             ++ [(addPlayer_start sessionToken newPlayer w).1])
                            (town w))).
    transitivity (find_session sessionToken
                    (set_sessions (_sessions (town w)
                       ++ [(addPlayer_start sessionToken newPlayer w).1])
                       (town w))); [done|].
    rewrite find_session_push. simpl.
    by rewrite bool_decide_eq_true_2. }
  assert (Hsome : ∃ session,
             find_session sessionToken
               (town (addPlayer_start sessionToken newPlayer w).2)
             = Some session).
  { rewrite Hfind. destruct (find_session sessionToken (town w)); eauto. }
  destruct Hsome as [session Hsession].
  destruct (connect_accepts sessionToken socket session _ Hsession)
    as (Hls & _ & _ & Hhs & _ & _).
  split; [|split].
  - exists session. split; [done|]. split.
    + by apply find_session_Some in Hsession as [_ ?].
    + exact Hhs.
  - unfold occupancy. rewrite Hls, length_app. simpl. lia.
  - intros Hnone. by rewrite Hfind, Hnone.
Qed.

Lemma pending_join_accepts_connect_witness :
  find_session "token-carol"
    (town (addPlayer_start "token-carol" carol two_connected).2)
  = Some (addPlayer_start "token-carol" carol two_connected).1.
Proof.
  apply (proj2 (proj2 (pending_join_accepts_connect "token-carol" carol 3
                         two_connected))).
  vm_compute. reflexivity.
Defined.

(** X5: [connect] does not use a token up: while a session carries it, every
    socket that presents it is accepted and adds a listener. *)
Theorem live_token_connects_again (sessionToken : string)
    (session : PlayerSession.t) (sockets : list Socket) (w : World) :
  find_session sessionToken (town w) = Some session →
  let w' := foldl (λ w socket, connect sessionToken socket w) w sockets in
  occupancy (town w') = occupancy (town w) + length sockets
  ∧ find_session sessionToken (town w') = Some session
  ∧ trace w' = trace w.
Proof.
  cbv zeta. revert w. induction sockets as [|socket sockets IH]; intros w Hfind.
  - simpl. rewrite Nat.add_0_r. done.
  - simpl foldl.
    destruct (connect_accepts sessionToken socket session w Hfind)
      as (Hls & _ & Hss & _ & Htr & _).
    assert (Hfind' : find_session sessionToken
                       (town (connect sessionToken socket w)) = Some session).
    { unfold find_session. rewrite Hss. exact Hfind. }
    destruct (IH _ Hfind') as (Hocc & Hf & Ht).
    rewrite Hocc, Hf, Ht, Htr. unfold occupancy. rewrite Hls, length_app.
    simpl. repeat split. lia.
Qed.

Lemma live_token_connects_again_witness :
  occupancy (town (foldl (λ w socket, connect "token-alice" socket w)
                         two_connected [5; 6; 7]))
  = occupancy (town two_connected) + 3.
Proof.
  apply (live_token_connects_again "token-alice" alice_session [5; 6; 7]
           two_connected).
  vm_compute. reflexivity.
Defined.

(** ** Events of an operation *)

Lemma step_grows (o : Op) (w : World) :
  grows (step_event o w) w (step o w).
Proof.
  destruct o; simpl step.
  - eexists. split; [reflexivity|]. by constructor.
  - destruct fetched as [videoToken|]; [|apply grows_refl]. simpl.
    apply grows_forEach; [done|]. intros l Hl. eexists l, _.
    split; [done|]. split; [done|]. discriminate.
  - by apply grows_same.
  - by apply grows_same.
  - by apply grows_same.
  - by apply grows_same.
  - by apply grows_same.
  - apply disconnectAllPlayers_grows.
  - unfold connect. destruct (find_session sessionToken (town w)) eqn:Hfind.
    + by apply grows_same.
    + eexists. split; [reflexivity|]. by constructor.
  - apply onDisconnect_handled.
  - apply onPlayerMovement_handled.
  - apply socket_disconnect_handled.
  - apply socket_playerMovement_handled.
Qed.

(** X6: Whatever the operation, the listeners it calls are listeners that were
    registered when it began: nothing is delivered to a listener that has
    been removed. *)
Theorem calls_go_to_registered_listeners (o : Op) (w : World) (e : Event)
    (l : CoveyTownListener) :
  e ∈ emitted w (step o w) → callee e = Some l → l ∈ _listeners (town w).
Proof.
  intros He Hcallee.
  destruct (grows_emitted _ _ _ (step_grows o w)) as [_ Hall].
  rewrite Forall_forall in Hall. specialize (Hall e He).
  destruct o; simpl in Hall;
    try (destruct Hall as (l' & n & -> & Hl & _); simpl in Hcallee; congruence);
    try (subst e; discriminate).
  - destruct Hall as [(l' & Hl & ->)|(l' & n & -> & Hl & _)];
      simpl in Hcallee; congruence.
  - destruct Hall as [_ ->]. discriminate.
Qed.

(** X7: Only two operations ever ask a socket to disconnect: destroying the
    town, and [connect] when it rejects.  All the others, a [connect] that
    accepts included, send at most events. *)
Theorem sockets_stay_open (o : Op) (w : World) :
  o ≠ DisconnectAllPlayers →
  (∀ sessionToken socket,
     o = Connect sessionToken socket →
     find_session sessionToken (town w) ≠ None) →
  Forall is_emit (wire (emitted w (step o w))).
Proof.
  intros Hdestroy Haccepts.
  destruct (grows_emitted _ _ _ (step_grows o w)) as [_ Hall].
  assert (Hplayer : ∀ ls evs, Forall (player_call ls) evs →
                              Forall is_emit (wire evs)).
  { intros ls evs Hevs. unfold wire. apply Forall_forall. intros a Ha.
    apply list_elem_of_In, in_flat_map in Ha as (e & He & Ha).
    rewrite Forall_forall in Hevs.
    destruct (Hevs e (proj2 (list_elem_of_In _ _) He)) as (l & n & -> & _ & Hn).
    destruct l as [obj socket|obj]; [|destruct Ha].
    destruct n; simpl in Ha; try done;
      destruct Ha as [<-|[]]; exact I. }
  destruct o;
    try (exfalso; apply Hdestroy; reflexivity);
    simpl in Hall; try (eapply Hplayer; exact Hall).
  - apply Forall_forall. intros a Ha. unfold wire in Ha.
    apply list_elem_of_In, in_flat_map in Ha as (e & He & Ha).
    rewrite Forall_forall in Hall.
    rewrite (Hall e (proj2 (list_elem_of_In _ _) He)) in Ha. destruct Ha.
  - apply Forall_forall. intros a Ha. unfold wire in Ha.
    apply list_elem_of_In, in_flat_map in Ha as (e & He & Ha).
    rewrite Forall_forall in Hall.
    destruct (Hall e (proj2 (list_elem_of_In _ _) He)) as [Hnone _].
    by destruct (Haccepts sessionToken socket eq_refl).
Qed.

(** ** Histories *)

Lemma update_frame (coveyTownPassword : string) (friendlyName : option string)
    (makePublic : option bool) (t : CoveyTownController) :
  let t' := (update coveyTownPassword friendlyName makePublic t).2 in
  _players t' = _players t
  ∧ _sessions t' = _sessions t
  ∧ _listeners t' = _listeners t
  ∧ _coveyTownID t' = _coveyTownID t
  ∧ _townUpdatePassword t' = _townUpdatePassword t.
Proof.
  unfold update.
  destruct (passwordMatches coveyTownPassword (_townUpdatePassword t));
    destruct friendlyName as [[|c s]|]; destruct makePublic; done.
Qed.

Lemma run_snoc (ops : list Op) (o : Op) (w : World) :
  run (ops ++ [o]) w = step o (run ops w).
Proof. unfold run. by rewrite foldl_snoc. Qed.

Lemma step_listeners (o : Op) (w : World) (l : CoveyTownListener) :
  l ∈ _listeners (town (step o w)) →
  l ∈ _listeners (town w) ∨ registers l o.
Proof.
  destruct o; simpl step.
  - by left.
  - destruct fetched; by left.
  - simpl. destruct (update_frame coveyTownPassword friendlyName makePublic
                       (town w)) as (_ & _ & -> & _). by left.
  - by left.
  - by left.
  - simpl. intros Hl. apply elem_of_app in Hl as [Hl|Hl]; [by left|].
    right. apply elem_of_cons in Hl as [->|Hl]; [done|].
    by apply elem_of_nil in Hl.
  - simpl. intros Hl. left. by apply list_elem_of_filter in Hl as [_ ?].
  - intros Hl. left. by apply (disconnectAllPlayers_shrinks w).
  - unfold connect. destruct (find_session sessionToken (town w)); [|by left].
    simpl. intros Hl. apply elem_of_app in Hl as [Hl|Hl]; [by left|].
    right. apply elem_of_cons in Hl as [->|Hl]; [by eexists|].
    by apply elem_of_nil in Hl.
  - intros Hl. left.
    by apply (onDisconnect_handled listener session w).
  - intros Hl. left. by apply (onPlayerMovement_handled player location w).
  - intros Hl. left. by apply (socket_disconnect_handled socket w).
  - intros Hl. left.
    by apply (socket_playerMovement_handled socket movementData w).
Qed.

Lemma calls_to_none (l : CoveyTownListener) (evs : list Event) :
  Forall (λ e, callee e ≠ Some l) evs → calls_to l evs = 0.
Proof.
  intros Hall. unfold calls_to. induction Hall as [|e evs He _ IH]; [done|].
  by rewrite filter_cons, decide_False.
Qed.

Lemma step_event_callee (o : Op) (w : World) (e : Event)
    (l : CoveyTownListener) :
  step_event o w e → callee e = Some l → l ∈ _listeners (town w).
Proof.
  intros He Hcallee.
  destruct o; simpl in He;
    try (destruct He as (l' & n & -> & Hl & _); simpl in Hcallee; congruence);
    try (subst e; discriminate).
  - destruct He as [(l' & Hl & ->)|(l' & n & -> & Hl & _)];
      simpl in Hcallee; congruence.
  - destruct He as [_ ->]. discriminate.
Qed.

(** X8: A listener that is not registered, and that no operation of a history
    registers, is not called at any point of that history. *)
Theorem unregistered_listener_is_never_called (l : CoveyTownListener)
    (ops : list Op) (w : World) :
  l ∉ _listeners (town w) → Forall (λ o, ¬ registers l o) ops →
  calls_to l (emitted w (run ops w)) = 0
  ∧ l ∉ _listeners (town (run ops w)).
Proof.
  intros Hout Hops.
  assert (Hinv : grows (λ e, callee e ≠ Some l) w (run ops w)
                 ∧ l ∉ _listeners (town (run ops w))).
  { induction ops as [|o ops IH] using rev_ind.
    - split; [apply grows_refl|done].
    - apply Forall_app in Hops as [Hops Ho].
      apply Forall_cons in Ho as [Ho _].
      destruct (IH Hops) as [Hg Hl]. rewrite run_snoc. split.
      + eapply grows_trans; [exact Hg|].
        eapply grows_weaken; [|apply step_grows].
        intros e He Hcallee. apply Hl.
        by eapply step_event_callee.
      + intros Hin. by apply step_listeners in Hin as [Hin|Hin]. }
  destruct Hinv as [Hg Hl]. split; [|done].
  apply calls_to_none. by apply grows_emitted in Hg as [_ ?].
Qed.

Lemma step_identity (o : Op) (w : World) :
  _coveyTownID (town (step o w)) = _coveyTownID (town w)
  ∧ _townUpdatePassword (town (step o w)) = _townUpdatePassword (town w)
  ∧ (¬ writes_listing o →
     _friendlyName (town (step o w)) = _friendlyName (town w)
     ∧ _isPubliclyListed (town (step o w)) = _isPubliclyListed (town w)).
Proof.
  destruct o; simpl step;
    try (by destruct (socket_disconnect_handled socket w)
           as (_ & _ & ? & ? & ? & ? & _));
    try (by destruct (socket_playerMovement_handled socket movementData w)
           as (_ & _ & ? & ? & ? & ? & _));
    try (by destruct (disconnectAllPlayers_shrinks w)
           as (_ & _ & _ & _ & ? & ? & ? & ? & _));
    try done.
  - by destruct fetched.
  - simpl. destruct (update_frame coveyTownPassword friendlyName makePublic
                       (town w)) as (_ & _ & _ & -> & ->).
    split; [done|]. split; [done|]. intros Hno. by destruct Hno.
  - unfold connect. by destruct (find_session sessionToken (town w)).
Qed.

(** X9: No history changes the identifier of the town or its update password;
    the friendly name and the visibility change only through [update] and
    the two public setters. *)
Theorem town_identity_is_fixed (ops : list Op) (w : World) :
  _coveyTownID (town (run ops w)) = _coveyTownID (town w)
  ∧ _townUpdatePassword (town (run ops w)) = _townUpdatePassword (town w)
  ∧ (Forall (λ o, ¬ writes_listing o) ops →
     _friendlyName (town (run ops w)) = _friendlyName (town w)
     ∧ _isPubliclyListed (town (run ops w)) = _isPubliclyListed (town w)).
Proof.
  induction ops as [|o ops IH] using rev_ind; [done|].
  destruct IH as (Hid & Hpw & Hrest). rewrite run_snoc.
  destruct (step_identity o (run ops w)) as (Hid' & Hpw' & Hrest').
  split; [congruence|]. split; [congruence|].
  intros Hops. apply Forall_app in Hops as [Hops Ho].
  apply Forall_cons in Ho as [Ho _].
  destruct (Hrest Hops) as [Hname Hvis].
  destruct (Hrest' Ho) as [Hname' Hvis']. split; congruence.
Qed.

Lemma step_adapters_built (o : Op) (w : World) :
  own_listener o → adapters_built w → adapters_built (step o w).
Proof.
  intros Hown Hbuilt.
  assert (Hsub : ∀ w', _listeners (town w') ⊆ _listeners (town w) →
                       next_obj w ≤ next_obj w' → adapters_built w').
  { intros w' Hls Hn obj socket Hin.
    specialize (Hbuilt obj socket (Hls _ Hin)). lia. }
  destruct o; simpl step.
  - apply Hsub; simpl; [done|lia].
  - destruct fetched; by apply Hsub.
  - apply Hsub; [|done]. simpl.
    by destruct (update_frame coveyTownPassword friendlyName makePublic
                   (town w)) as (_ & _ & -> & _).
  - by apply Hsub.
  - by apply Hsub.
  - intros obj socket Hin. simpl in Hin.
    apply elem_of_app in Hin as [Hin|Hin]; [by apply (Hbuilt obj socket)|].
    apply elem_of_cons in Hin as [<-|Hin]; [by destruct Hown|].
    by apply elem_of_nil in Hin.
  - apply Hsub; [|done]. simpl. apply list_subseteq_filter; apply _.
  - destruct (disconnectAllPlayers_shrinks w)
      as (Hls & _ & _ & _ & _ & _ & _ & _ & _ & Hn). apply Hsub; [done|lia].
  - unfold connect. destruct (find_session sessionToken (town w));
      [|by apply Hsub].
    intros obj socket' Hin. simpl in Hin |- *.
    apply elem_of_app in Hin as [Hin|Hin].
    + specialize (Hbuilt obj socket' Hin). lia.
    + apply elem_of_cons in Hin as [Heq|Hin]; [|by apply elem_of_nil in Hin].
      unfold townSocketAdapter in Heq. injection Heq as -> _. lia.
  - destruct (onDisconnect_handled listener session w)
      as (_ & Hls & _ & _ & _ & _ & _ & Hn). apply Hsub; [done|lia].
  - destruct (onPlayerMovement_handled player location w)
      as (_ & Hls & _ & _ & _ & _ & _ & Hn). apply Hsub; [done|lia].
  - destruct (socket_disconnect_handled socket w)
      as (_ & Hls & _ & _ & _ & _ & _ & Hn). apply Hsub; [done|lia].
  - destruct (socket_playerMovement_handled socket movementData w)
      as (_ & Hls & _ & _ & _ & _ & _ & Hn). apply Hsub; [done|lia].
Qed.

(** X10: In a town where the adapters are built by [connect] alone, every
    accepted connection gets a listener that was not registered before: the
    new adapter is registered exactly once. *)
Theorem connect_registers_a_new_listener (ops : list Op)
    (t : CoveyTownController) (sessionToken : string) (socket : Socket)
    (session : PlayerSession.t) :
  _listeners t = [] → Forall own_listener ops →
  let w := run ops (new_world t) in
  find_session sessionToken (town w) = Some session →
  let listener := townSocketAdapter (next_obj w) socket in
  (listener ∉ _listeners (town w))
  ∧ registrations listener (town (connect sessionToken socket w)) = 1.
Proof.
  intros Hempty Hops w Hfind listener.
  assert (Hbuilt : adapters_built w).
  { subst w. clear Hfind listener.
    induction ops as [|o ops IH] using rev_ind.
    - intros obj socket' Hin. simpl in Hin. rewrite Hempty in Hin.
      by apply elem_of_nil in Hin.
    - apply Forall_app in Hops as [Hops Ho].
      apply Forall_cons in Ho as [Ho _]. rewrite run_snoc.
      apply step_adapters_built; auto. }
  assert (Hnew : listener ∉ _listeners (town w)).
  { intros Hin. specialize (Hbuilt _ _ Hin). lia. }
  split; [done|].
  destruct (connect_accepts sessionToken socket session w Hfind)
    as (Hls & _).
  unfold registrations. rewrite Hls, filter_app, length_app.
  rewrite filter_all_out. 2:{ intros v Hv ->. done. }
  rewrite filter_cons, filter_nil, decide_True by done. done.
Qed.

(** ** Updating, once more *)

(** X11: [update] never touches the players, the sessions or the listeners, and
    doing the same update again changes nothing more and gives the same
    answer. *)
Theorem update_is_idempotent (coveyTownPassword : string)
    (friendlyName : option string) (makePublic : option bool)
    (t : CoveyTownController) :
  let r := update coveyTownPassword friendlyName makePublic t in
  update coveyTownPassword friendlyName makePublic r.2 = r
  ∧ _players r.2 = _players t
  ∧ _sessions r.2 = _sessions t
  ∧ _listeners r.2 = _listeners t.
Proof.
  cbv zeta. split.
  - unfold update.
    destruct (passwordMatches coveyTownPassword (_townUpdatePassword t)) eqn:Hpw;
      destruct friendlyName as [[|c s]|]; destruct makePublic; simpl;
      rewrite ?Hpw; done.
  - by destruct (update_frame coveyTownPassword friendlyName makePublic t)
      as (? & ? & ? & _).
Qed.

(** ** Destroying the town *)

Lemma wire_broadcast (n : Notification) (ls : list CoveyTownListener) :
  wire (map (λ l, ListenerCall l n) ls)
  = flat_map (λ l, socket_actions (ListenerCall l n)) ls.
Proof.
  unfold wire. induction ls as [|l ls IH]; [done|]. simpl. by rewrite IH.
Qed.

(** X12: [disconnectAllPlayers] tells every listener of the list, once for each
    of its registrations, that the town is destroyed, so each adapted socket
    is sent [townClosing] and is asked to disconnect.  Closing the socket of
    a connection runs its disconnect handler: by the end of the loop the
    adapter, the session and the player of that connection are gone from the
    town and the token is rejected.  Nothing is added to the town, the
    handlers stay installed, and in a town where every listener is the
    adapter of a connection no listener is left. *)
Theorem disconnectAllPlayers_closes_connections (w : World) :
  let w' := disconnectAllPlayers w in
  (∀ l, destroyed_calls_to l (emitted w w') = registrations l (town w))
  ∧ (∀ l a, l ∈ _listeners (town w) → a ∈ closing l →
            a ∈ wire (emitted w w'))
  ∧ shrinks w w'
  ∧ (∀ obj socket session,
       SocketAdapter obj socket ∈ _listeners (town w) →
       (socket, DisconnectHandler (SocketAdapter obj socket) session)
       ∈ handlers w →
       connection_gone (SocketAdapter obj socket) session w'
       ∧ find_session (PlayerSession.sessionToken session) (town w') = None)
  ∧ (all_connected w →
     _listeners (town w') = [] ∧ occupancy (town w') = 0).
Proof.
  cbv zeta. split; [intros l; apply disconnectAllPlayers_destroyed_calls|].
  split.
  { intros l a Hl Ha.
    assert (Hcall : ListenerCall l onTownDestroyed
                    ∈ emitted w (disconnectAllPlayers w)).
    { pose proof (disconnectAllPlayers_destroyed_calls l w) as Hcount.
      unfold destroyed_calls_to, registrations in Hcount.
      destruct (filter (λ e, e = ListenerCall l onTownDestroyed)
                       (emitted w (disconnectAllPlayers w)))
        as [|e evs] eqn:Hevs.
      - exfalso.
        assert (Hin : l ∈ filter (λ v, v = l) (_listeners (town w)))
          by by apply list_elem_of_filter.
        destruct (filter (λ v, v = l) (_listeners (town w)));
          [by apply elem_of_nil in Hin|discriminate].
      - assert (He : e ∈ filter (λ e, e = ListenerCall l onTownDestroyed)
                                (emitted w (disconnectAllPlayers w)))
          by (rewrite Hevs; left).
        by apply list_elem_of_filter in He as [-> ?]. }
    unfold wire. apply list_elem_of_In, in_flat_map.
    exists (ListenerCall l onTownDestroyed).
    split; [by apply list_elem_of_In|]. apply list_elem_of_In.
    by destruct l. }
  split; [apply disconnectAllPlayers_shrinks|]. split.
  { intros obj socket session Hl Hh.
    pose proof (destroy_fold_connection_gone (_listeners (town w)) obj socket
                  session w Hl Hh) as Hgone.
    split; [exact Hgone|]. apply find_session_None. apply Hgone. }
  intros Hall. unfold occupancy.
  by rewrite (disconnectAllPlayers_all_connected w Hall).
Qed.

(** ** A connection from beginning to end *)

Lemma handlers_of_same (socket : Socket) (w w' : World) :
  handlers w' = handlers w → handlers_of socket w' = handlers_of socket w.
Proof. unfold handlers_of. by intros ->. Qed.

Lemma connect_handlers_of (sessionToken : string) (socket : Socket)
    (session : PlayerSession.t) (w : World) :
  find_session sessionToken (town w) = Some session →
  handlers_of socket w = [] →
  handlers_of socket (connect sessionToken socket w)
  = [DisconnectHandler (townSocketAdapter (next_obj w) socket) session;
     PlayerMovementHandler session].
Proof.
  intros Hfind Hfresh.
  destruct (connect_accepts sessionToken socket session w Hfind)
    as (_ & _ & _ & Hhs & _ & _).
  unfold handlers_of. rewrite Hhs, filter_app, map_app.
  fold (handlers_of socket w). rewrite Hfresh.
  rewrite !filter_cons, filter_nil. simpl. by rewrite !decide_True.
Qed.

Lemma connect_then_socket_disconnect (sessionToken : string) (socket : Socket)
    (session : PlayerSession.t) (w : World) :
  find_session sessionToken (town w) = Some session →
  handlers_of socket w = [] →
  socket_disconnect socket (connect sessionToken socket w)
  = onDisconnect (townSocketAdapter (next_obj w) socket) session
      (connect sessionToken socket w).
Proof.
  intros Hfind Hfresh. unfold socket_disconnect.
  by rewrite (connect_handlers_of _ _ _ _ Hfind Hfresh).
Qed.

(** X13: A connection that is accepted and then closed leaves the listener list
    as it was before the connection, tells every listener of that list that
    the player disconnected, and ends the session: its token is rejected
    from then on. *)
Theorem connect_then_disconnect (sessionToken : string) (socket : Socket)
    (session : PlayerSession.t) (w : World) :
  find_session sessionToken (town w) = Some session →
  handlers_of socket w = [] →
  adapters_built w →
  let w' := socket_disconnect socket (connect sessionToken socket w) in
  _listeners (town w') = _listeners (town w)
  ∧ occupancy (town w') = occupancy (town w)
  ∧ emitted w w'
    = map (λ l, ListenerCall l
                  (onPlayerDisconnected
                     (observe w (PlayerSession.player session))))
          (_listeners (town w))
  ∧ find_session sessionToken (town w') = None.
Proof.
  intros Hfind Hfresh Hbuilt. cbv zeta.
  rewrite (connect_then_socket_disconnect _ _ _ _ Hfind Hfresh).
  destruct (connect_accepts sessionToken socket session w Hfind)
    as (Hls & _ & _ & _ & Htr & Hloc).
  destruct (find_session_Some _ _ _ Hfind) as [_ Htok].
  assert (Hnew : townSocketAdapter (next_obj w) socket ∉ _listeners (town w)).
  { intros Hin. specialize (Hbuilt _ _ Hin). lia. }
  assert (Hback : filter (λ v, v ≠ townSocketAdapter (next_obj w) socket)
                    (_listeners (town (connect sessionToken socket w)))
                  = _listeners (town w)).
  { rewrite Hls, filter_app, filter_cons, filter_nil, decide_False by auto.
    rewrite app_nil_r. apply filter_all. intros v Hv ->. done. }
  assert (Hlist : _listeners (town (onDisconnect
                     (townSocketAdapter (next_obj w) socket) session
                     (connect sessionToken socket w)))
                  = _listeners (town w)).
  { rewrite town_onDisconnect. exact Hback. }
  split; [done|]. split; [unfold occupancy; by rewrite Hlist|]. split.
  - transitivity (emitted (connect sessionToken socket w)
                    (onDisconnect (townSocketAdapter (next_obj w) socket)
                       session (connect sessionToken socket w))).
    { unfold emitted. by rewrite Htr. }
    rewrite onDisconnect_emitted, Hback. unfold observe. by rewrite Hloc.
  - rewrite <- Htok. apply onDisconnect_ends_session.
Qed.

(** X14: The handlers of a socket stay installed after its disconnection: a
    movement message that still arrives moves the player, who is no longer
    in the player list, and is broadcast to the listeners that remain. *)
Theorem movement_after_disconnect (sessionToken : string) (socket : Socket)
    (session : PlayerSession.t) (location : UserLocation.t) (w : World) :
  find_session sessionToken (town w) = Some session →
  handlers_of socket w = [] →
  let w1 := socket_disconnect socket (connect sessionToken socket w) in
  let w2 := socket_playerMovement socket location w1 in
  let player := PlayerSession.player session in
  (player ∉ _players (town w1))
  ∧ locations w2 !! Player.obj player = Some location
  ∧ emitted w1 w2
    = map (λ l, ListenerCall l (onPlayerMoved (mkArg player (Some location))))
          (_listeners (town w1)).
Proof.
  intros Hfind Hfresh. cbv zeta.
  rewrite (connect_then_socket_disconnect _ _ _ _ Hfind Hfresh).
  set (w1 := onDisconnect _ session _).
  assert (Hrun : socket_playerMovement socket location w1
                 = onPlayerMovement (PlayerSession.player session) location w1).
  { unfold socket_playerMovement.
    rewrite (handlers_of_same socket (connect sessionToken socket w) w1)
      by done.
    by rewrite (connect_handlers_of _ _ _ _ Hfind Hfresh). }
  rewrite Hrun. split; [|split].
  - subst w1. rewrite town_onDisconnect. simpl. intros Hin.
    by apply list_elem_of_filter in Hin as [Hne _].
  - simpl. apply lookup_insert_eq.
  - apply onPlayerMovement_emitted.
Qed.

(** ** One player, two sessions *)

(** X15: [onDisconnect] removes players by identifier and sessions by token.
    When a player has joined twice, closing one connection takes every
    entry of the player out of the player list, while the other session
    stays and its token is still accepted. *)
Theorem disconnect_removes_player_of_other_session
    (listener : CoveyTownListener) (s1 s2 : PlayerSession.t) (w : World) :
  s2 ∈ _sessions (town w) →
  PlayerSession.sessionToken s2 ≠ PlayerSession.sessionToken s1 →
  Player.id (PlayerSession.player s2) = Player.id (PlayerSession.player s1) →
  let w' := onDisconnect listener s1 w in
  s2 ∈ _sessions (town w')
  ∧ (∀ p, p ∈ _players (town w') →
          Player.id p ≠ Player.id (PlayerSession.player s2))
  ∧ ∃ session,
      find_session (PlayerSession.sessionToken s2) (town w') = Some session.
Proof.
  intros Hin Htok Hid. cbv zeta.
  assert (Hin' : s2 ∈ _sessions (town (onDisconnect listener s1 w))).
  { rewrite town_onDisconnect. simpl. by apply list_elem_of_filter. }
  split; [done|]. split.
  - rewrite town_onDisconnect. simpl. intros p Hp.
    apply list_elem_of_filter in Hp as [Hne _]. by rewrite Hid.
  - by eapply find_session_live.
Qed.

(** ** What the sockets are sent *)

(** X16: The adapters turn the three player notifications into socket events:
    a move sends [playerMoved], a completed join [newPlayer] and a
    disconnection [playerDisconnect], once to the socket of each registered
    adapter, with the player as payload, and nothing else. *)
Theorem adapters_send_player_events (w : World) :
  (∀ player location,
     wire (emitted w (onPlayerMovement player location w))
     = flat_map (sends "playerMoved" (mkArg player (Some location)))
                (_listeners (town w)))
  ∧ (∀ theSession videoToken,
       wire (emitted w (addPlayer_resume theSession (Some videoToken) w).2)
       = flat_map (sends "newPlayer"
                         (observe w (PlayerSession.player theSession)))
                  (_listeners (town w)))
  ∧ (∀ listener session,
       wire (emitted w (onDisconnect listener session w))
       = flat_map (sends "playerDisconnect"
                         (observe w (PlayerSession.player session)))
                  (filter (λ v, v ≠ listener) (_listeners (town w)))).
Proof.
  assert (Hsends : ∀ n ev payload ls,
            (∀ socket, adapter_method socket n = [Emit socket ev (Some payload)]) →
            wire (map (λ l, ListenerCall l n) ls) = flat_map (sends ev payload) ls).
  { intros n ev payload ls Hn. rewrite wire_broadcast.
    induction ls as [|l ls IH]; [done|]. cbn [flat_map]. rewrite IH.
    destruct l as [obj socket|obj]; [|done]. simpl. by rewrite Hn. }
  split; [|split].
  - intros player location. rewrite onPlayerMovement_emitted. by apply Hsends.
  - intros theSession videoToken. unfold addPlayer_resume. cbn [snd].
    rewrite emitted_forEach by done. by apply Hsends.
  - intros listener session. rewrite onDisconnect_emitted. by apply Hsends.
Qed.

(** ** The life of a session token *)

Lemma socket_disconnect_sessions (socket : Socket) (w : World) :
  _sessions (town (socket_disconnect socket w)) ⊆ _sessions (town w).
Proof.
  apply (handlers_fold (λ w w', _sessions (town w') ⊆ _sessions (town w))).
  - done.
  - intros a b c Hab Hbc. by etrans.
  - intros [listener session|session] w'; [|done].
    simpl. apply list_subseteq_filter; apply _.
Qed.

Lemma socket_playerMovement_town (socket : Socket)
    (movementData : UserLocation.t) (w : World) :
  town (socket_playerMovement socket movementData w) = town w.
Proof.
  apply (handlers_fold (λ w w', town w' = town w)).
  - done.
  - intros a b c Hab Hbc. congruence.
  - by intros [listener session|session] w'.
Qed.

Lemma step_sessions (o : Op) (w : World) (s : PlayerSession.t) :
  s ∈ _sessions (town (step o w)) →
  s ∈ _sessions (town w) ∨ mints (PlayerSession.sessionToken s) o.
Proof.
  destruct o; simpl step.
  - simpl. intros Hs. apply elem_of_app in Hs as [Hs|Hs]; [by left|].
    right. apply elem_of_cons in Hs as [->|Hs]; [done|].
    by apply elem_of_nil in Hs.
  - destruct fetched; by left.
  - simpl. destruct (update_frame coveyTownPassword friendlyName makePublic
                       (town w)) as (_ & -> & _). by left.
  - by left.
  - by left.
  - by left.
  - by left.
  - intros Hs. left. by apply (disconnectAllPlayers_shrinks w).
  - unfold connect. destruct (find_session sessionToken (town w)); by left.
  - simpl. intros Hs. left.
    by apply list_elem_of_filter in Hs as [_ ?].
  - by left.
  - intros Hs. left. by apply (socket_disconnect_sessions socket w).
  - rewrite socket_playerMovement_town. by left.
Qed.

Lemma step_keeps_session (o : Op) (w : World) (s : PlayerSession.t) :
  ¬ disconnects o → s ∈ _sessions (town w) → s ∈ _sessions (town (step o w)).
Proof.
  intros Ho Hs. destruct o; simpl step; try done; try (by destruct Ho).
  - simpl. apply elem_of_app. by left.
  - by destruct fetched.
  - simpl. by destruct (update_frame coveyTownPassword friendlyName makePublic
                          (town w)) as (_ & -> & _).
  - unfold connect. by destruct (find_session sessionToken (town w)).
  - by rewrite socket_playerMovement_town.
Qed.

(** X17: A token that [connect] rejects stays rejected, whatever happens in the
    town, until a join creates a session with that token. *)
Theorem rejected_token_stays_rejected (sessionToken : string) (ops : list Op)
    (w : World) :
  find_session sessionToken (town w) = None →
  Forall (λ o, ¬ mints sessionToken o) ops →
  find_session sessionToken (town (run ops w)) = None
  ∧ ∀ socket,
      connect sessionToken socket (run ops w)
      = emit [SocketDisconnect socket true] (run ops w).
Proof.
  intros Hnone Hops.
  assert (Hdead : find_session sessionToken (town (run ops w)) = None).
  { induction ops as [|o ops IH] using rev_ind; [done|].
    apply Forall_app in Hops as [Hops Ho]. apply Forall_cons in Ho as [Ho _].
    specialize (IH Hops). rewrite run_snoc.
    apply find_session_None. intros s Hs Htok.
    apply step_sessions in Hs as [Hs|Hs].
    - by apply (proj1 (find_session_None _ _) IH s).
    - apply Ho. by rewrite <- Htok. }
  split; [done|]. intros socket. by apply connect_without_session.
Qed.

(** X18: A session stays in the town, and its token stays accepted, through
    every history in which [onDisconnect] does not run: no disconnect of a
    socket and no [disconnectAllPlayers], which closes the sockets.  Joins,
    updates, movements and further connections leave it alone. *)
Theorem session_lives_until_disconnect (s : PlayerSession.t) (ops : list Op)
    (w : World) :
  s ∈ _sessions (town w) →
  Forall (λ o, ¬ disconnects o) ops →
  s ∈ _sessions (town (run ops w))
  ∧ ∃ session,
      find_session (PlayerSession.sessionToken s) (town (run ops w))
      = Some session.
Proof.
  intros Hs Hops.
  assert (Hlive : s ∈ _sessions (town (run ops w))).
  { induction ops as [|o ops IH] using rev_ind; [done|].
    apply Forall_app in Hops as [Hops Ho]. apply Forall_cons in Ho as [Ho _].
    rewrite run_snoc. apply step_keeps_session; auto. }
  split; [done|]. by eapply find_session_live.
Qed.

End Controller.

(** ** Instances *)

Lemma update_as_described_witness :
  update String.eqb "wrong-password" (Some "New name"%string) (Some true)
         (town two_connected)
  = (false, town two_connected)
  ∧ (update String.eqb "update-password" (Some "New name"%string) (Some true)
            (town two_connected)).1 = true.
Proof.
  split.
  - apply (proj1 (proj2 (update_as_described String.eqb "wrong-password"
                           (Some "New name"%string) (Some true)
                           (town two_connected)))).
    left. vm_compute. reflexivity.
  - apply (proj2 (proj2 (update_as_described String.eqb "update-password"
                           (Some "New name"%string) (Some true)
                           (town two_connected)))).
    intros [Hpw|Hname]; [vm_compute in Hpw|]; discriminate.
Defined.

Lemma calls_go_to_registered_listeners_witness :
  bob_listener ∈ _listeners (town two_connected).
Proof.
  apply (calls_go_to_registered_listeners String.eqb (SocketDisconnected 1) two_connected
           (ListenerCall bob_listener
              (onPlayerDisconnected (mkArg alice None)))).
  - vm_compute. left.
  - reflexivity.
Defined.

Lemma sockets_stay_open_witness :
  Forall is_emit (wire (emitted two_connected
                          (step String.eqb (Connect "token-alice" 5)
                                two_connected))).
Proof.
  apply sockets_stay_open; [discriminate|]. intros sessionToken socket Heq.
  injection Heq as <- <-. vm_compute. discriminate.
Defined.

Lemma unregistered_listener_is_never_called_witness :
  calls_to alice_listener
    (emitted (removeTownListener alice_listener two_connected)
       (run String.eqb
          [SocketPlayerMovement 2 somewhere; SocketDisconnected 2;
           DisconnectAllPlayers]
          (removeTownListener alice_listener two_connected))) = 0.
Proof.
  refine (proj1 (unregistered_listener_is_never_called String.eqb alice_listener
                   [SocketPlayerMovement 2 somewhere; SocketDisconnected 2;
                    DisconnectAllPlayers]
                   (removeTownListener alice_listener two_connected) _ _)).
  - intros Hin. vm_compute in Hin.
    apply elem_of_cons in Hin as [Heq|Hin]; [discriminate|].
    by apply elem_of_nil in Hin.
  - repeat constructor; intros [].
Defined.

Lemma town_identity_is_fixed_witness :
  _friendlyName
    (town (run String.eqb
             [Connect "token-alice" 1; SocketDisconnected 1;
              DisconnectAllPlayers] alice_joined))
  = _friendlyName (town alice_joined).
Proof.
  refine (proj1 (proj2 (proj2 (town_identity_is_fixed String.eqb
            [Connect "token-alice" 1; SocketDisconnected 1;
             DisconnectAllPlayers] alice_joined)) _)).
  repeat constructor; intros [].
Defined.

Lemma connect_registers_a_new_listener_witness :
  let w := run String.eqb
             [AddPlayerStart "token-alice" alice;
              AddPlayerResume alice_session (Some "video-alice"%string);
              Connect "token-alice" 1]
             (new_world (new_town "1A2B3C4D" "update-password" "Town" false)) in
  registrations (townSocketAdapter (next_obj w) 9)
                (town (connect "token-alice" 9 w)) = 1.
Proof.
  refine (proj2 (connect_registers_a_new_listener String.eqb
            [AddPlayerStart "token-alice" alice;
             AddPlayerResume alice_session (Some "video-alice"%string);
             Connect "token-alice" 1]
            (new_town "1A2B3C4D" "update-password" "Town" false)
            "token-alice" 9 alice_session _ _ _)).
  - reflexivity.
  - repeat constructor.
  - vm_compute. reflexivity.
Defined.

Lemma two_connected_all_connected : all_connected two_connected.
Proof.
  intros l Hl. vm_compute in Hl.
  apply elem_of_cons in Hl as [->|Hl].
  { exists 2, 1, alice_session. split; [reflexivity|]. vm_compute. left. }
  apply elem_of_cons in Hl as [->|Hl]; [|by apply elem_of_nil in Hl].
  exists 3, 2, bob_session. split; [reflexivity|]. vm_compute.
  right. right. left.
Qed.

Lemma disconnectAllPlayers_closes_connections_witness :
  occupancy (town (disconnectAllPlayers two_connected)) = 0
  ∧ find_session "token-alice" (town (disconnectAllPlayers two_connected))
    = None.
Proof.
  destruct (disconnectAllPlayers_closes_connections two_connected)
    as (_ & _ & _ & Hgone & Hall).
  split.
  - apply Hall. apply two_connected_all_connected.
  - apply (Hgone 2 1 alice_session).
    + vm_compute. left.
    + vm_compute. left.
Defined.

Lemma connect_then_disconnect_witness :
  _listeners (town (socket_disconnect 1 (connect "token-alice" 1 alice_joined)))
  = _listeners (town alice_joined).
Proof.
  refine (proj1 (connect_then_disconnect "token-alice" 1 alice_session
                   alice_joined _ _ _)).
  - vm_compute. reflexivity.
  - vm_compute. reflexivity.
  - intros obj socket Hin. vm_compute in Hin. by apply elem_of_nil in Hin.
Defined.

Lemma movement_after_disconnect_witness :
  locations
    (socket_playerMovement 1 somewhere
       (socket_disconnect 1 (connect "token-alice" 1 alice_joined)))
  !! Player.obj alice = Some somewhere.
Proof.
  refine (proj1 (proj2 (movement_after_disconnect "token-alice" 1 alice_session
                          somewhere alice_joined _ _))).
  - vm_compute. reflexivity.
  - vm_compute. reflexivity.
Defined.

Lemma disconnect_removes_player_of_other_session_witness :
  alice_second_session
  ∈ _sessions (town (onDisconnect alice_listener alice_session alice_twice)).
Proof.
  refine (proj1 (disconnect_removes_player_of_other_session alice_listener
                   alice_session alice_second_session alice_twice _ _ _)).
  - vm_compute. right. right. left.
  - discriminate.
  - reflexivity.
Defined.

Lemma rejected_token_stays_rejected_witness :
  find_session "token-carol"
    (town (run String.eqb
             [Connect "token-carol" 3; SocketPlayerMovement 1 somewhere;
              AddPlayerStart "token-dave" carol]
             two_connected)) = None.
Proof.
  refine (proj1 (rejected_token_stays_rejected String.eqb "token-carol"
                   [Connect "token-carol" 3; SocketPlayerMovement 1 somewhere;
                    AddPlayerStart "token-dave" carol]
                   two_connected _ _)).
  - vm_compute. reflexivity.
  - repeat first [apply Forall_nil_2 | apply Forall_cons_2]; simpl;
      first [discriminate | intros []].
Defined.

Lemma session_lives_until_disconnect_witness :
  bob_session
  ∈ _sessions (town (run String.eqb
                       [Update "update-password" (Some "Other"%string) None;
                        Connect "token-bob" 7;
                        SocketPlayerMovement 2 somewhere;
                        SetIsPubliclyListed true]
                       two_connected)).
Proof.
  refine (proj1 (session_lives_until_disconnect String.eqb bob_session
                   [Update "update-password" (Some "Other"%string) None;
                    Connect "token-bob" 7;
                    SocketPlayerMovement 2 somewhere;
                    SetIsPubliclyListed true]
                   two_connected _ _)).
  - vm_compute. right. left.
  - repeat constructor; intros [].
Defined.

Lemma occupancy_counts_listeners_witness :
  occupancy (town (disconnectAllPlayers two_connected)) = 0.
Proof.
  destruct (occupancy_counts_listeners String.eqb) as (_ & Hops & _).
  destruct (Hops two_connected) as (_ & _ & _ & _ & _ & _ & _ & Hall).
  apply Hall. apply two_connected_all_connected.
Defined.
